(** * MusicDownloader: the acquisition cache of [temp.py]

    A shallow embedding of the class [MusicDownloader] of [src/temp.py]
    (the sqlite table [songs], the Internet Archive round trip of
    [search_and_download], the VLC playback methods) and the properties
    of the specification that concern it.

    Conventions.
    - A Python [str] is a [string]: the bytes of its UTF-8 encoding.
      Equality, [startswith('/')], concatenation and sqlite's BINARY
      collation are all byte-wise, so they are exact on this
      representation.  [str.lower] depends on the Unicode tables of the
      interpreter and is a parameter of the development.
    - Methods run in a state-and-exception monad over a [World] that
      holds the rows of the table, the paths present on disk, what was
      printed, and a log of every call made to the imported libraries
      ([internetarchive], [vlc]).
    - The three functions imported from [internetarchive] are
      parameters: total functions that either return or raise.
    - The module never binds the name [DOWNLOAD_DIR] that
      [search_and_download] reads.  The value it would have is a
      parameter, [None] standing for the module as it is. *)

From Stdlib Require Import ZArith Ascii String List Lia.
From stdpp Require Import base decidable option list sorting strings pretty gmap.

Local Open Scope string_scope.
Local Open Scope list_scope.

(** ** Python values and exceptions *)

(** The values that the methods return or look up in the module
    namespace.  Classes, modules, functions and instances are opaque. *)
#[local] Set Warnings "-register-all".
Inductive pyval : Type :=
| VNone
| VInt (z : Z)
| VStr (s : string)
| VList (l : list pyval)
| VTuple (l : list pyval)
| VObject (descr : string).

(** A Python list of [str]. *)
Definition str_list (l : list string) : pyval := VList (VStr <$> l).

(** Truth value of an object in a condition ([if x:]). *)
Definition truthy (v : pyval) : bool :=
  match v with
  | VNone => false
  | VInt z => negb (z =? 0)%Z
  | VStr s => negb (String.eqb s "")
  | VList l | VTuple l => match l with [] => false | _ => true end
  | VObject _ => true
  end.

Inductive exn : Type :=
| NameError (name : string)          (* name '...' is not defined *)
| TypeError (msg : string)
| ProgrammingError (msg : string)    (* sqlite3: closed database *)
| LibraryError (msg : string).       (* raised inside internetarchive / requests *)

Inductive outcome (A : Type) : Type :=
| Return (a : A)
| Raise (e : exn).
Arguments Return {A} a.
Arguments Raise {A} e.

(** [len(x)] *)
Definition len (v : pyval) : outcome nat :=
  match v with
  | VStr s => Return (String.length s)
  | VList l | VTuple l => Return (length l)
  | _ => Raise (TypeError "object has no len()")
  end.

(** ** The world *)

(** One row of
    [CREATE TABLE songs (id INTEGER PRIMARY KEY, identifier TEXT UNIQUE,
    title TEXT, artist TEXT, date TEXT, file_path TEXT)]. *)
Record Song : Type := mkSong {
  s_id : Z;
  s_identifier : string;
  s_title : string;
  s_artist : string;
  s_date : string;
  s_file_path : string;
}.

(** A [vlc.MediaPlayer] object: the path it was created for, and whether
    it has been told to play and not been told to stop since. *)
Record MediaPlayer : Type := mkMediaPlayer {
  mp_path : string;
  mp_playing : bool;
}.

(** Calls that leave the process: the log orders them. *)
Inductive Event : Type :=
| SearchItems (query : string)
| GetItem (item_id : string)
| Download (item_id : string) (files : list string) (destdir : pyval)
| VlcMediaPlayer (handle : nat) (path : string)
| VlcPlay (handle : nat)
| VlcStop (handle : nat).

Record World : Type := mkWorld {
  conn_open : bool;                   (* self.conn has not been closed *)
  songs : list Song;                  (* table songs, in rowid order *)
  disk : gset string;                 (* paths for which os.path.exists holds *)
  stdout : list string;               (* one entry per print call *)
  events : list Event;                (* oldest first *)
  media_players : list MediaPlayer;   (* every MediaPlayer created, by handle *)
  player : option nat;                (* self.player; None is Python's None *)
}.

Definition set_conn_open (b : bool) (w : World) : World :=
  mkWorld b (songs w) (disk w) (stdout w) (events w) (media_players w) (player w).
Definition set_songs (t : list Song) (w : World) : World :=
  mkWorld (conn_open w) t (disk w) (stdout w) (events w) (media_players w) (player w).
Definition set_disk (d : gset string) (w : World) : World :=
  mkWorld (conn_open w) (songs w) d (stdout w) (events w) (media_players w) (player w).
Definition set_stdout (o : list string) (w : World) : World :=
  mkWorld (conn_open w) (songs w) (disk w) o (events w) (media_players w) (player w).
Definition set_events (e : list Event) (w : World) : World :=
  mkWorld (conn_open w) (songs w) (disk w) (stdout w) e (media_players w) (player w).
Definition set_media_players (m : list MediaPlayer) (w : World) : World :=
  mkWorld (conn_open w) (songs w) (disk w) (stdout w) (events w) m (player w).
Definition set_player (p : option nat) (w : World) : World :=
  mkWorld (conn_open w) (songs w) (disk w) (stdout w) (events w) (media_players w) p.

(** ** The monad *)

Definition M (A : Type) : Type := World -> outcome A * World.

Definition ret {A} (a : A) : M A := fun w => (Return a, w).
Definition raise {A} (e : exn) : M A := fun w => (Raise e, w).
Definition bind {A B} (c : M A) (k : A -> M B) : M B :=
  fun w =>
    match c w with
    | (Return a, w') => k a w'
    | (Raise e, w') => (Raise e, w')
    end.
Definition lift {A} (o : outcome A) : M A := fun w => (o, w).

Notation "'let*' x ':=' c 'in' k" := (bind c (fun x => k))
  (at level 10, x name, c at level 100, k at level 200).
Notation "c ';;' k" := (bind c (fun _ => k))
  (at level 100, k at level 200, right associativity).

(** [print(line)] *)
Definition print (line : string) : M unit :=
  fun w => (Return tt, set_stdout (stdout w ++ [line]) w).

Definition log (e : Event) : M unit :=
  fun w => (Return tt, set_events (events w ++ [e]) w).

(** Decimal rendering of an [int] inside an f-string. *)
Definition fmt_int (n : nat) : string := pretty n.

(** The f-string of line 88. *)
Definition archive_query (artist date : string) : string :=
  "collection:" +:+ artist +:+ " AND date:" +:+ date.

(** ** Module namespace *)

Definition Namespace : Type := list (string * pyval).

Fixpoint ns_lookup (name : string) (ns : Namespace) : option pyval :=
  match ns with
  | [] => None
  | (n, v) :: rest => if String.eqb n name then Some v else ns_lookup name rest
  end.

(** Every name bound at module level when [search_and_download] runs:
    the configuration block (lines 4-34), the imports (36-46), the class
    statement (49) and, when run as a script, the three assignments that
    precede the call (185-190).  No builtin is called [DOWNLOAD_DIR]. *)
Definition module_globals : Namespace :=
  [ ("PinConfig", VObject "class PinConfig");
    ("LCD_I2C_ADDR", VInt 39);
    ("LCD_COLS", VInt 20);
    ("LCD_ROWS", VInt 4);
    ("BUTTON_DEBOUNCE_TIME", VInt 300);
    ("ENCODER_DEBOUNCE_TIME", VInt 100);
    ("ARCHIVE_API_URL", VStr "https://archive.org/advancedsearch.php");
    ("ARCHIVE_METADATA_URL", VStr "https://archive.org/metadata");
    ("MAX_API_RETRIES", VInt 3);
    ("API_TIMEOUT", VInt 10);
    ("DATABASE_FILE", VStr "music_cache.db");
    ("LOG_FILE", VStr "time_machine.log");
    ("os", VObject "module os");
    ("sqlite3", VObject "module sqlite3");
    ("requests", VObject "module requests");
    ("vlc", VObject "module vlc");
    ("datetime", VObject "class datetime");
    ("timedelta", VObject "class timedelta");
    ("threading", VObject "module threading");
    ("time", VObject "module time");
    ("search_items", VObject "function search_items");
    ("get_item", VObject "function get_item");
    ("download", VObject "function download");
    ("MusicDownloader", VObject "class MusicDownloader");
    ("downloader", VObject "MusicDownloader instance");
    ("artist_name", VStr "GratefulDead");
    ("show_date", VStr "1972-09-03") ].

(** The namespace of the module were [DOWNLOAD_DIR] given the string
    [dir] next to the other path constants; [None] is the module as it
    stands. *)
Definition namespace (download_dir : option string) : Namespace :=
  match download_dir with
  | Some dir => ("DOWNLOAD_DIR", VStr dir) :: module_globals
  | None => module_globals
  end.

(** Evaluating a global name: [NameError] when it is bound nowhere. *)
Definition load_global (ns : Namespace) (name : string) : M pyval :=
  match ns_lookup name ns with
  | Some v => ret v
  | None => raise (NameError name)
  end.

(** ** [os.path] (posixpath) *)

Definition starts_with_sep (s : string) : bool :=
  match s with
  | String c _ => Ascii.eqb c "/"
  | EmptyString => false
  end.

Fixpoint ends_with_sep (s : string) : bool :=
  match s with
  | EmptyString => false
  | String c EmptyString => Ascii.eqb c "/"
  | String _ rest => ends_with_sep rest
  end.

(** One round of the loop of [posixpath.join]. *)
Definition join_step (path b : string) : string :=
  if starts_with_sep b then b
  else if String.eqb path "" || ends_with_sep path then path +:+ b
  else path +:+ "/" +:+ b.

Definition posix_join (a : string) (p : list string) : string :=
  fold_left join_step p a.

(** [os.path.join(a, *p)] with [a] taken from the namespace: joining a
    non-string with strings is a [TypeError]. *)
Definition os_path_join (a : pyval) (p : list string) : M string :=
  match a with
  | VStr s => ret (posix_join s p)
  | _ => raise (TypeError "expected str, bytes or os.PathLike object")
  end.

(** [os.path.exists(path)] *)
Definition os_path_exists (path : string) : M bool :=
  fun w => (Return (bool_decide (path ∈ disk w)), w).

(** ** The table [songs] *)

(** The rowid sqlite gives a row inserted without an [id]: one more than
    the largest in use, 1 in an empty table.  A rowid is a signed 64-bit
    integer: this is sqlite's choice as long as the result is at most
    2^63-1.  When the largest rowid in use is 2^63-1 itself sqlite draws
    an unused one at random, and the new row is then neither numbered
    this way nor last in rowid order; [rowid_room] below states that
    this does not happen, and the properties that depend on the number
    or the place of a new row assume it. *)
Definition next_rowid (t : list Song) : Z :=
  match s_id <$> t with
  | [] => 1
  | i :: rest => foldl Z.max i rest + 1
  end.

(** [SELECT file_path FROM songs WHERE artist=? AND date=?] *)
Definition select_file_paths (t : list Song) (artist date : string) : list string :=
  s_file_path <$> filter (fun r => s_artist r = artist ∧ s_date r = date) t.

(** [INSERT OR IGNORE INTO songs (identifier, artist, date, title, file_path)
    VALUES (?, ?, ?, ?, ?)]: the row is dropped when it would break
    [identifier TEXT UNIQUE]. *)
Definition insert_or_ignore (t : list Song)
    (identifier artist date title file_path : string) : list Song :=
  if decide (identifier ∈ s_identifier <$> t) then t
  else t ++ [mkSong (next_rowid t) identifier title artist date file_path].

(** [ORDER BY artist, date] under the BINARY collation: bytes of the
    artist first, bytes of the date to break ties. *)
Definition show_le (x y : string * string) : Prop :=
  if decide (x.1 = y.1) then String.le x.2 y.2 else String.le x.1 y.1.

Global Instance show_le_dec : RelDecision show_le.
Proof. intros x y. unfold show_le. destruct (decide (x.1 = y.1)); apply _. Defined.

(** [SELECT DISTINCT artist, date FROM songs ORDER BY artist, date] *)
Definition select_distinct_shows (t : list Song) : list (string * string) :=
  merge_sort show_le (remove_dups ((fun r => (s_artist r, s_date r)) <$> t)).

(** ** The imported [internetarchive] functions *)

(** An element of [search_items(query)]: a mapping with an
    ['identifier'] entry. *)
Record SearchResult : Type := mkSearchResult {
  r_identifier : string;
}.

(** An element of [item.files]: a mapping with ['name'] and ['format']. *)
Record FileEntry : Type := mkFileEntry {
  f_name : string;
  f_format : string;
}.

Record Item : Type := mkItem {
  files : list FileEntry;
}.

(** [download] acts on the disk; it may raise after writing some files. *)
Record InternetArchive : Type := mkInternetArchive {
  search_items : string -> outcome (list SearchResult);
  get_item : string -> outcome Item;
  download : string -> list string -> pyval -> gset string -> outcome unit * gset string;
}.

(** ** [class MusicDownloader] *)

Section MusicDownloader.

(** [str.lower], the archive client, and the value of [DOWNLOAD_DIR] if
    the module had one. *)
Context (str_lower : string -> string).
Context (ia : InternetArchive).
Context (download_dir : option string).

(** A statement run on [self.conn] inside [with self.conn:]. *)
Definition with_conn {A} (stmt : list Song -> A * list Song) : M A :=
  fun w =>
    if conn_open w then
      let (a, t) := stmt (songs w) in (Return a, set_songs t w)
    else (Raise (ProgrammingError "Cannot operate on a closed database."), w).

(** [setup_database]: [CREATE TABLE IF NOT EXISTS] keeps the rows of an
    existing file. *)
Definition setup_database : M unit :=
  load_global (namespace download_dir) "DATABASE_FILE" ;;
  fun w => (Return tt, set_conn_open true w).

(** [__init__] *)
Definition init : M unit :=
  setup_database ;;
  fun w => (Return tt, set_player None w).

Definition get_cached_songs (artist date : string) : M pyval :=
  with_conn (fun t => (str_list (select_file_paths t artist date), t)).

Definition cache_song (identifier artist date title file_path : string) : M pyval :=
  with_conn (fun t => (VNone, insert_or_ignore t identifier artist date title file_path)).

(** The comprehension of lines 101-104. *)
Definition audio_files_of (item : Item) (file_format : string) : list string :=
  f_name <$> filter (fun file => str_lower (f_format file) = str_lower file_format) (files item).

Definition call_search_items (query : string) : M (list SearchResult) :=
  log (SearchItems query) ;; lift (search_items ia query).

Definition call_get_item (item_id : string) : M Item :=
  log (GetItem item_id) ;; lift (get_item ia item_id).

Definition call_download (item_id : string) (names : list string) (destdir : pyval) : M unit :=
  log (Download item_id names destdir) ;;
  fun w => let (o, d) := download ia item_id names destdir (disk w) in (o, set_disk d w).

(** The loop of lines 116-119; [downloaded_songs] is the list built so far. *)
Fixpoint cache_downloaded (item_id artist date : string) (audio_files : list string)
    (downloaded_songs : list string) : M (list string) :=
  match audio_files with
  | [] => ret downloaded_songs
  | file_name :: rest =>
      let* destdir := load_global (namespace download_dir) "DOWNLOAD_DIR" in
      let* file_path := os_path_join destdir [item_id; file_name] in
      cache_song item_id artist date file_name file_path ;;
      cache_downloaded item_id artist date rest (downloaded_songs ++ [file_path])
  end.

Definition search_and_download (artist date file_format : string) : M pyval :=
  let* cached_songs := get_cached_songs artist date in
  if truthy cached_songs then
    let* n := lift (len cached_songs) in
    print ("Found " +:+ fmt_int n +:+ " cached songs. Skipping download.") ;;
    ret cached_songs
  else
    let query := archive_query artist date in
    print ("Searching for " +:+ artist +:+ " shows on " +:+ date +:+ "...") ;;
    let* results := call_search_items query in
    match results with
    | [] =>
        print "No results found." ;;
        ret (VList [])
    | first :: _ =>
        let item_id := r_identifier first in
        print ("Found item: " +:+ item_id) ;;
        let* item := call_get_item item_id in
        let audio_files := audio_files_of item file_format in
        match audio_files with
        | [] =>
            print ("No '" +:+ file_format +:+ "' files found for this show.") ;;
            ret (VList [])
        | _ :: _ =>
            print ("Downloading " +:+ fmt_int (length audio_files) +:+ " '" +:+ file_format +:+ "' files...") ;;
            let* destdir := load_global (namespace download_dir) "DOWNLOAD_DIR" in
            call_download item_id audio_files destdir ;;
            let* downloaded_songs := cache_downloaded item_id artist date audio_files [] in
            print "Download complete." ;;
            ret (str_list downloaded_songs)
        end
    end.

(** *** Playback *)

Definition set_playing (b : bool) (m : MediaPlayer) : MediaPlayer :=
  mkMediaPlayer (mp_path m) b.

(** [vlc.MediaPlayer(path)]: a new object, not playing. *)
Definition vlc_MediaPlayer (path : string) : M nat :=
  fun w =>
    let h := length (media_players w) in
    (Return h,
     set_events (events w ++ [VlcMediaPlayer h path])
       (set_media_players (media_players w ++ [mkMediaPlayer path false]) w)).

Definition vlc_play (h : nat) : M unit :=
  fun w =>
    (Return tt,
     set_events (events w ++ [VlcPlay h])
       (set_media_players (alter (set_playing true) h (media_players w)) w)).

Definition vlc_stop (h : nat) : M unit :=
  fun w =>
    (Return tt,
     set_events (events w ++ [VlcStop h])
       (set_media_players (alter (set_playing false) h (media_players w)) w)).

Definition play_song (file_path : string) : M pyval :=
  let* found := os_path_exists file_path in
  if negb found then
    print ("File not found: " +:+ file_path) ;;
    ret VNone
  else
    let* current := (fun w => (Return (player w), w)) in
    match current with
    | Some h => vlc_stop h
    | None => ret tt
    end ;;
    print ("Playing: " +:+ file_path) ;;
    let* h := vlc_MediaPlayer file_path in
    (fun w => (Return tt, set_player (Some h) w)) ;;
    vlc_play h ;;
    ret VNone.

Definition stop_playback : M pyval :=
  let* current := (fun w => (Return (player w), w)) in
  match current with
  | Some h => vlc_stop h ;; print "Playback stopped."
  | None => ret tt
  end ;;
  ret VNone.

(** *** Utility *)

Fixpoint print_shows (shows : list (string * string)) : M unit :=
  match shows with
  | [] => ret tt
  | (artist, date) :: rest => print (artist +:+ " - " +:+ date) ;; print_shows rest
  end.

Definition list_cached_shows : M pyval :=
  let* shows := with_conn (fun t => (select_distinct_shows t, t)) in
  match shows with
  | [] => print "No cached shows found."
  | _ :: _ => ret tt
  end ;;
  print_shows shows ;;
  ret VNone.

Definition cleanup : M pyval :=
  (fun w => (Return tt, set_conn_open false w)) ;;
  ret VNone.

End MusicDownloader.

(** ** ASCII instance of [str.lower]

    On text made of ASCII characters [str.lower] maps [A-Z] to [a-z] and
    leaves every other character alone. *)

Definition lower_char (c : ascii) : ascii :=
  let n := N_of_ascii c in
  if ((65 <=? n) && (n <=? 90))%N then ascii_of_N (n + 32) else c.

Fixpoint ascii_lower (s : string) : string :=
  match s with
  | EmptyString => EmptyString
  | String c rest => String (lower_char c) (ascii_lower rest)
  end.

(** Two characters that differ at most by the case of a letter. *)
Definition same_letter (c d : ascii) : Prop :=
  c = d ∨ lower_char c = d ∨ c = lower_char d.

Global Instance same_letter_dec c d : Decision (same_letter c d).
Proof. unfold same_letter. apply _. Defined.

(** Two strings equal up to the case of their ASCII letters. *)
Fixpoint eq_ignoring_case (s t : string) : Prop :=
  match s, t with
  | EmptyString, EmptyString => True
  | String c s', String d t' => same_letter c d ∧ eq_ignoring_case s' t'
  | _, _ => False
  end.

(** ** Cache hit and miss *)

Definition cache_hit (artist date : string) (paths : list string) (w : World) : Prop :=
  get_cached_songs artist date w = (Return (str_list paths), w) ∧ paths ≠ [].

Definition cache_miss (artist date : string) (w : World) : Prop :=
  get_cached_songs artist date w = (Return (VList []), w).

(** The constraint [identifier TEXT UNIQUE] of the schema. *)
Definition unique_identifier (t : list Song) : Prop :=
  NoDup (s_identifier <$> t).

(** Media players that have been told to play and not to stop since. *)
Definition playing_handles (mp : list MediaPlayer) : list nat :=
  filter (fun h => mp_playing <$> mp !! h = Some true) (seq 0 (length mp)).

Definition active_handles (w : World) : list nat :=
  playing_handles (media_players w).

(** The media players once [self.player], if any, has been stopped. *)
Definition stopped_players (w : World) : list MediaPlayer :=
  match player w with
  | Some h => alter (set_playing false) h (media_players w)
  | None => media_players w
  end.

(** The stop sent to [self.player], if any. *)
Definition stop_current (w : World) : list Event :=
  match player w with
  | Some h => [VlcStop h]
  | None => []
  end.

(** What holds of the playback state between two method calls: only the
    object in [self.player] can be playing, and [self.player] is one of
    the objects created. *)
Definition playback_inv (w : World) : Prop :=
  (∀ h m, media_players w !! h = Some m -> mp_playing m = true -> player w = Some h) ∧
  (∀ h, player w = Some h -> h < length (media_players w)).

(** A step that touches neither [self.player] nor any media player. *)
Definition same_playback (w w' : World) : Prop :=
  media_players w' = media_players w ∧ player w' = player w.

(** Strict artist-then-date order on the bytes. *)
Definition show_lt (x y : string * string) : Prop :=
  strict String.le x.1 y.1 ∨ (x.1 = y.1 ∧ strict String.le x.2 y.2).

(** The line printed for a show. *)
Definition show_line (x : string * string) : string := x.1 +:+ " - " +:+ x.2.

(** ** Example inputs *)

(** A fresh object on an empty database file and an empty disk. *)
Definition fresh_world : World := mkWorld true [] ∅ [] [] [] None.

(** An archive holding one show with two mp3 files and one flac file;
    [download] writes every requested file under [destdir/identifier/]. *)
Definition one_show_archive : InternetArchive :=
  mkInternetArchive
    (fun _ => Return [mkSearchResult "gd1972-09-03"])
    (fun _ => Return (mkItem [mkFileEntry "track1.mp3" "MP3";
                              mkFileEntry "track1.flac" "Flac";
                              mkFileEntry "track2.mp3" "mp3"]))
    (fun item_id names destdir d =>
       match destdir with
       | VStr dir => (Return tt, d ∪ list_to_set ((fun n => posix_join dir [item_id; n]) <$> names))
       | _ => (Raise (LibraryError "destdir"), d)
       end).

(** An archive that finds nothing. *)
Definition empty_archive : InternetArchive :=
  mkInternetArchive
    (fun _ => Return [])
    (fun _ => Return (mkItem []))
    (fun _ _ _ d => (Return tt, d)).

(** An archive whose search returns two candidates: the first holds only
    a flac file, the second an mp3 file. *)
Definition two_candidates_archive : InternetArchive :=
  mkInternetArchive
    (fun _ => Return [mkSearchResult "show-flac"; mkSearchResult "show-mp3"])
    (fun item_id =>
       if String.eqb item_id "show-flac"
       then Return (mkItem [mkFileEntry "set1.flac" "Flac"])
       else Return (mkItem [mkFileEntry "set1.mp3" "MP3"]))
    (fun _ _ _ d => (Return tt, d)).

(** The table after [cache_song] was called for a show of artist A and
    a show of artist B. *)
Definition two_shows_world : World :=
  ((cache_song "item-a" "A" "2020-01-01" "a.mp3" "downloads/item-a/a.mp3" ;;
    cache_song "item-b" "B" "2020-01-01" "b.mp3" "downloads/item-b/b.mp3") fresh_world).2.

(** The rows a batch leaves in the table: one [INSERT OR IGNORE] per
    file name, all under the identifier of the item. *)
Definition record_all (t : list Song) (item_id artist date destdir : string)
    (names : list string) : list Song :=
  foldl (fun t name =>
           insert_or_ignore t item_id artist date name (posix_join destdir [item_id; name]))
        t names.

(** A fresh object next to two files on disk. *)
Definition two_files_world : World :=
  set_disk {["music/a.mp3"; "music/b.mp3"]} fresh_world.

(** ** A client of the class *)

(** One call of a public method on the object. *)
Inductive Call : Type :=
| CallSearchAndDownload (artist date file_format : string)
| CallGetCachedSongs (artist date : string)
| CallCacheSong (identifier artist date title file_path : string)
| CallPlaySong (file_path : string)
| CallStopPlayback
| CallListCachedShows
| CallCleanup.

Definition run_call (str_lower : string -> string) (ia : InternetArchive)
    (download_dir : option string) (c : Call) : M pyval :=
  match c with
  | CallSearchAndDownload artist date file_format =>
      search_and_download str_lower ia download_dir artist date file_format
  | CallGetCachedSongs artist date => get_cached_songs artist date
  | CallCacheSong identifier artist date title file_path =>
      cache_song identifier artist date title file_path
  | CallPlaySong file_path => play_song file_path
  | CallStopPlayback => stop_playback
  | CallListCachedShows => list_cached_shows
  | CallCleanup => cleanup
  end.

(** The world after a client made the calls one after the other, going
    on with the next one whether the last returned or raised. *)
Fixpoint run_calls (str_lower : string -> string) (ia : InternetArchive)
    (download_dir : option string) (calls : list Call) (w : World) : World :=
  match calls with
  | [] => w
  | c :: rest =>
      run_calls str_lower ia download_dir rest (run_call str_lower ia download_dir c w).2
  end.

(** A table reached from another by [INSERT OR IGNORE] statements only. *)
Inductive inserts (t : list Song) : list Song -> Prop :=
| inserts_none : inserts t t
| inserts_more t' identifier artist date title file_path :
    inserts t t' ->
    inserts t (insert_or_ignore t' identifier artist date title file_path).

(** ** The script (lines 184-206) *)

(** [try: body finally: final]: [final] runs on every exit of [body];
    what it raises replaces the outcome of [body]. *)
Definition try_finally {A B} (body : M A) (final : M B) : M A :=
  fun w =>
    let (o, w1) := body w in
    match final w1 with
    | (Return _, w2) => (o, w2)
    | (Raise e, w2) => (Raise e, w2)
    end.

(** [downloader.play_song(downloaded_files[0])] for the list of [str]
    that [search_and_download] returns; the last case is not reached
    with such a list once [if downloaded_files:] has been passed. *)
Definition play_first (downloaded_files : pyval) : M pyval :=
  match downloaded_files with
  | VList (VStr file_path :: _) => play_song file_path
  | _ => raise (TypeError "not a non-empty list of str")
  end.

(** The body of [if __name__ == "__main__":].  No exception of the model
    is a [KeyboardInterrupt], which the interpreter raises on a signal, so
    the [except] clause is never entered and [try ... finally] remains. *)
Definition main (str_lower : string -> string) (ia : InternetArchive)
    (download_dir : option string) : M pyval :=
  init download_dir ;;
  try_finally
    (let artist_name := "GratefulDead" in
     let show_date := "1972-09-03" in
     let* downloaded_files :=
       search_and_download str_lower ia download_dir artist_name show_date "mp3" in
     list_cached_shows ;;
     if truthy downloaded_files then play_first downloaded_files else ret VNone)
    cleanup.

(** An archive that cannot be reached: the search raises. *)
Definition unreachable_archive : InternetArchive :=
  mkInternetArchive
    (fun _ => Raise (LibraryError "ConnectionError"))
    (fun _ => Raise (LibraryError "ConnectionError"))
    (fun _ _ _ d => (Raise (LibraryError "ConnectionError"), d)).

(** An archive whose download writes the first requested file and then
    fails. *)
Definition flaky_archive : InternetArchive :=
  mkInternetArchive
    (search_items one_show_archive)
    (get_item one_show_archive)
    (fun item_id names destdir d =>
       match destdir, names with
       | VStr dir, n :: _ =>
           (Raise (LibraryError "ReadTimeout"), d ∪ {[posix_join dir [item_id; n]]})
       | _, _ => (Raise (LibraryError "ReadTimeout"), d)
       end).

(** The largest rowid of sqlite. *)
Definition max_rowid : Z := 2 ^ 63 - 1.

(** Room for [n] more rows: the next [n] rowids that [next_rowid] gives
    are all at most [max_rowid], so none of the next [n] inserts finds
    the largest rowid in use.  sqlite draws the rowid of a row before it
    checks [UNIQUE], so an insert that is then ignored needs room as
    well: a batch that adds one row and then has inserts ignored needs
    room for two. *)
Definition rowid_room (n : nat) (t : list Song) : Prop :=
  (next_rowid t + Z.of_nat n <= max_rowid + 1)%Z.

(** A table that is another one, or that one followed by one new row
    with the next rowid. *)
Definition adds_at_most_one (t t' : list Song) : Prop :=
  t' = t ∨ ∃ row, t' = t ++ [row] ∧ s_id row = next_rowid t.

(** A library call that reads the archive and writes nothing. *)
Definition read_only_call (e : Event) : Prop :=
  match e with
  | SearchItems _ | GetItem _ => True
  | _ => False
  end.

(** * Properties *)

(** ** Basic facts about the world and the monad *)

Lemma set_songs_same w : set_songs (songs w) w = w.
Proof. by destruct w. Qed.

Lemma str_list_inj l1 l2 : str_list l1 = str_list l2 -> l1 = l2.
Proof.
  unfold str_list. intros H. injection H as H. revert l2 H.
  induction l1 as [|x l1 IH]; intros [|y l2] H; simplify_eq/=; [done|].
  f_equal. by apply IH.
Qed.

Lemma get_cached_songs_open artist date w :
  conn_open w = true ->
  get_cached_songs artist date w =
    (Return (str_list (select_file_paths (songs w) artist date)), w).
Proof.
  intros Hopen. unfold get_cached_songs, with_conn. rewrite Hopen.
  by rewrite set_songs_same.
Qed.

Lemma get_cached_songs_returns artist date w v w' :
  get_cached_songs artist date w = (Return v, w') ->
  conn_open w = true ∧ w' = w ∧ v = str_list (select_file_paths (songs w) artist date).
Proof.
  unfold get_cached_songs, with_conn.
  destruct (conn_open w) eqn:Hopen; [|discriminate].
  rewrite set_songs_same. intros H. by simplify_eq.
Qed.

Lemma cache_miss_iff artist date w :
  cache_miss artist date w <->
  conn_open w = true ∧ select_file_paths (songs w) artist date = [].
Proof.
  unfold cache_miss. split.
  - intros H. destruct (get_cached_songs_returns _ _ _ _ _ H) as (Hopen & _ & Hv).
    split; [done|]. apply str_list_inj. by rewrite <- Hv.
  - intros [Hopen Hnil]. rewrite get_cached_songs_open by done. by rewrite Hnil.
Qed.

Lemma cache_song_open identifier artist date title file_path w :
  conn_open w = true ->
  cache_song identifier artist date title file_path w =
    (Return VNone,
     set_songs (insert_or_ignore (songs w) identifier artist date title file_path) w).
Proof. intros Hopen. unfold cache_song, with_conn. by rewrite Hopen. Qed.

Lemma lookup_download_dir download_dir :
  ns_lookup "DOWNLOAD_DIR" (namespace download_dir) = VStr <$> download_dir.
Proof. by destruct download_dir. Qed.

Lemma cache_downloaded_nil dd item_id artist date acc :
  cache_downloaded dd item_id artist date [] acc = ret acc.
Proof. reflexivity. Qed.

Lemma cache_downloaded_cons dd item_id artist date file_name rest acc :
  cache_downloaded dd item_id artist date (file_name :: rest) acc =
    (let* destdir := load_global (namespace dd) "DOWNLOAD_DIR" in
     let* file_path := os_path_join destdir [item_id; file_name] in
     cache_song item_id artist date file_name file_path ;;
     cache_downloaded dd item_id artist date rest (acc ++ [file_path])).
Proof. reflexivity. Qed.

#[local] Arguments cache_downloaded : simpl never.

(** Unfolds one run of a method down to the world it leaves. *)
Ltac run :=
  repeat (progress (unfold call_search_items, call_get_item, call_download,
            load_global, os_path_join, os_path_exists, bind, ret, raise,
            lift, print, log; simpl)).
Tactic Notation "run" "in" hyp(H) :=
  repeat (progress (unfold call_search_items, call_get_item, call_download,
            load_global, os_path_join, os_path_exists, bind, ret, raise,
            lift, print, log in H; simpl in H)).

(** ** Cache-hit short circuit *)

(** C1.  When the lookup for [(artist, date)] returns a non-empty list,
    [search_and_download] returns that very list, whatever the archive
    client would answer: the log of library calls, the table and the disk
    are as before, and one line is printed. *)
Theorem cache_hit_short_circuit
    (str_lower : string -> string) (ia : InternetArchive) (download_dir : option string)
    (artist date file_format : string) (paths : list string) (w : World) :
  cache_hit artist date paths w ->
  let r := search_and_download str_lower ia download_dir artist date file_format w in
  r.1 = Return (str_list paths) ∧
  events r.2 = events w ∧
  songs r.2 = songs w ∧
  disk r.2 = disk w ∧
  stdout r.2 =
    stdout w ++ ["Found " +:+ fmt_int (length paths) +:+ " cached songs. Skipping download."].
Proof.
  intros [Hget Hne] r.
  assert (Hr : r = (Return (str_list paths),
                    set_stdout (stdout w ++ ["Found " +:+ fmt_int (length paths)
                      +:+ " cached songs. Skipping download."]) w)).
  { subst r. unfold search_and_download, bind. rewrite Hget.
    destruct paths as [|p paths]; [done|].
    run. by rewrite length_fmap. }
  by rewrite Hr.
Qed.

(** ** No results *)

(** C5.  On a cache miss, when the search returns no candidate,
    [search_and_download] returns the empty list and raises nothing; one
    search was made, nothing was fetched, downloaded or recorded. *)
Theorem no_results_returns_empty
    (str_lower : string -> string) (ia : InternetArchive) (download_dir : option string)
    (artist date file_format : string) (w : World) :
  cache_miss artist date w ->
  search_items ia (archive_query artist date) = Return [] ->
  let r := search_and_download str_lower ia download_dir artist date file_format w in
  r.1 = Return (VList []) ∧
  events r.2 = events w ++ [SearchItems (archive_query artist date)] ∧
  songs r.2 = songs w ∧
  disk r.2 = disk w.
Proof.
  intros Hmiss Hsearch r. subst r.
  unfold search_and_download, bind. rewrite Hmiss.
  run. by rewrite Hsearch.
Qed.

(** ** Format filter *)

Lemma elem_of_audio_files_of str_lower item file_format name :
  name ∈ audio_files_of str_lower item file_format <->
  ∃ file, file ∈ files item ∧ f_name file = name ∧
          str_lower (f_format file) = str_lower file_format.
Proof.
  unfold audio_files_of. rewrite list_elem_of_fmap. split.
  - intros (file & -> & Hin). apply list_elem_of_filter in Hin as [Hfmt Hin]. eauto.
  - intros (file & Hin & <- & Hfmt). exists file. split; [done|].
    by apply list_elem_of_filter.
Qed.

(** The loop that records the downloaded files makes no library call,
    prints nothing and leaves the disk alone. *)
Lemma cache_downloaded_frame dd item_id artist date audio_files acc w o w' :
  cache_downloaded dd item_id artist date audio_files acc w = (o, w') ->
  events w' = events w ∧ disk w' = disk w ∧ stdout w' = stdout w ∧
  conn_open w' = conn_open w ∧
  media_players w' = media_players w ∧ player w' = player w.
Proof.
  revert acc w.
  induction audio_files as [|file_name rest IH]; intros acc w;
    [rewrite cache_downloaded_nil|rewrite cache_downloaded_cons].
  { unfold ret. solve [intros H; simpl in H; simplify_eq; auto 10]. }
  unfold bind, load_global, os_path_join, cache_song, with_conn.
  rewrite lookup_download_dir.
  destruct dd as [destdir|]; unfold ret, raise; simpl;
    [|solve [intros H; simpl in H; simplify_eq; auto 10]].
  destruct (conn_open w) eqn:Hopen; [|solve [intros H; simpl in H; simplify_eq; auto 10]].
  intros H. apply IH in H as (He & Hd & Hs & Hc & Hm & Hp).
  by rewrite He, Hd, Hs, Hc, Hm, Hp.
Qed.

(** ** The unbound name [DOWNLOAD_DIR] *)

(** C2 (as amended).  On a cache miss, when the search returns at least
    one candidate and the listing of the first one has a file of the
    requested format, [search_and_download] raises
    [NameError "DOWNLOAD_DIR"]: the name is bound nowhere in the module.
    The search and the listing were called, [download] was not, and no
    row was inserted. *)
Theorem download_dir_name_error
    (str_lower : string -> string) (ia : InternetArchive)
    (artist date file_format : string) (w : World)
    (first : SearchResult) (others : list SearchResult) (item : Item) :
  cache_miss artist date w ->
  search_items ia (archive_query artist date) = Return (first :: others) ->
  get_item ia (r_identifier first) = Return item ->
  audio_files_of str_lower item file_format ≠ [] ->
  let r := search_and_download str_lower ia None artist date file_format w in
  ns_lookup "DOWNLOAD_DIR" (namespace None) = None ∧
  r.1 = Raise (NameError "DOWNLOAD_DIR") ∧
  events r.2 =
    events w ++ [SearchItems (archive_query artist date); GetItem (r_identifier first)] ∧
  songs r.2 = songs w ∧
  disk r.2 = disk w.
Proof.
  intros Hmiss Hsearch Hitem Hfiles r. split; [reflexivity|].
  destruct r as [o w'] eqn:Hrun. subst r.
  unfold search_and_download, bind in Hrun. rewrite Hmiss in Hrun.
  run in Hrun. rewrite Hsearch, Hitem in Hrun.
  destruct (audio_files_of str_lower item file_format) as [|a rest]; [done|].
  simplify_eq. simpl. by rewrite <- (assoc_L (++)).
Qed.

(** C2, as stated, fails when the file of the requested format belongs
    to a candidate other than the first: the method returns the empty
    list and raises nothing. *)
Lemma name_error_not_for_later_candidates :
  let ia := two_candidates_archive in
  let r := search_and_download ascii_lower ia None
             "Phish" "1999-12-31" "mp3" fresh_world in
  cache_miss "Phish" "1999-12-31" fresh_world ∧
  search_items ia (archive_query "Phish" "1999-12-31") =
    Return [mkSearchResult "show-flac"; mkSearchResult "show-mp3"] ∧
  get_item ia "show-mp3" = Return (mkItem [mkFileEntry "set1.mp3" "MP3"]) ∧
  ascii_lower "MP3" = ascii_lower "mp3" ∧
  r.1 = Return (VList []) ∧
  r.1 ≠ Raise (NameError "DOWNLOAD_DIR").
Proof. repeat split; [reflexivity..|discriminate]. Qed.

(** ** Recording a batch *)

(** C3.  The run of [search_and_download] on an empty table, for a show
    whose first candidate lists two mp3 files.  As the module stands the
    call raises [NameError] and records nothing.  With [DOWNLOAD_DIR]
    bound, both files are downloaded and both paths are returned, yet
    only the first file has a row: both rows carry the identifier of the
    item, and [INSERT OR IGNORE] drops the second under
    [identifier TEXT UNIQUE].  The next lookup returns one path. *)
Theorem batch_records_first_file_only :
  let run download_dir :=
    search_and_download ascii_lower one_show_archive download_dir
      "GratefulDead" "1972-09-03" "mp3" fresh_world in
  let p1 := "downloads/gd1972-09-03/track1.mp3" in
  let p2 := "downloads/gd1972-09-03/track2.mp3" in
  let r0 := run None in
  let r := run (Some "downloads") in
  r0.1 = Raise (NameError "DOWNLOAD_DIR") ∧ songs r0.2 = [] ∧
  r.1 = Return (str_list [p1; p2]) ∧
  p1 ∈ disk r.2 ∧ p2 ∈ disk r.2 ∧
  songs r.2 = [mkSong 1 "gd1972-09-03" "track1.mp3" "GratefulDead" "1972-09-03" p1] ∧
  get_cached_songs "GratefulDead" "1972-09-03" r.2 = (Return (str_list [p1]), r.2).
Proof.
  repeat split; vm_compute; reflexivity.
Qed.

(** ** Idempotent insert *)

Lemma unique_identifier_nil : unique_identifier [].
Proof. constructor. Qed.

Lemma insert_or_ignore_present t identifier artist date title file_path :
  identifier ∈ s_identifier <$> t ->
  insert_or_ignore t identifier artist date title file_path = t.
Proof. intros Hin. unfold insert_or_ignore. by rewrite decide_True. Qed.

Lemma insert_or_ignore_absent t identifier artist date title file_path :
  identifier ∉ s_identifier <$> t ->
  insert_or_ignore t identifier artist date title file_path =
    t ++ [mkSong (next_rowid t) identifier title artist date file_path].
Proof. intros Hin. unfold insert_or_ignore. by rewrite decide_False. Qed.

Lemma insert_or_ignore_records t identifier artist date title file_path :
  identifier ∈ s_identifier <$> insert_or_ignore t identifier artist date title file_path.
Proof.
  unfold insert_or_ignore. case_decide; [done|].
  rewrite fmap_app. apply elem_of_app. right. simpl. apply list_elem_of_here.
Qed.

(** The UNIQUE constraint survives every insert. *)
Lemma insert_or_ignore_unique t identifier artist date title file_path :
  unique_identifier t ->
  unique_identifier (insert_or_ignore t identifier artist date title file_path).
Proof.
  unfold unique_identifier, insert_or_ignore. intros Hnd.
  case_decide as Hin; [done|].
  rewrite fmap_app. apply NoDup_app. split; [done|]. split.
  - intros x Hx Hx'. simpl in Hx'. apply list_elem_of_singleton in Hx'. by subst.
  - simpl. apply NoDup_singleton.
Qed.

Lemma filter_none {A} (P : A -> Prop) `{∀ x, Decision (P x)} (l : list A) :
  (∀ x, x ∈ l -> ¬ P x) -> filter P l = [].
Proof.
  induction l as [|x l IH]; intros Hl; [done|].
  rewrite filter_cons_False by (apply Hl; left).
  apply IH. intros y Hy. apply Hl. by right.
Qed.

Lemma unique_identifier_count t identifier :
  unique_identifier t ->
  identifier ∈ s_identifier <$> t ->
  length (filter (fun s => s_identifier s = identifier) t) = 1.
Proof.
  unfold unique_identifier. induction t as [|s t IH]; simpl; intros Hnd Hin.
  { by apply elem_of_nil in Hin. }
  apply NoDup_cons in Hnd as [Hs Hnd].
  rewrite filter_cons. case_decide as Heq.
  - simpl. f_equal. rewrite filter_none; [done|].
    intros x Hx Hx'. apply Hs.
    rewrite Heq, <- Hx'. apply list_elem_of_fmap. eauto.
  - apply IH; [done|]. apply elem_of_cons in Hin as [Hin|Hin]; [congruence|done].
Qed.

(** C4.  In a table that satisfies its UNIQUE constraint, [cache_song]
    with an identifier already present returns normally and leaves the
    whole world as it was; the table holds exactly one row with that
    identifier. *)
Theorem insert_idempotent
    (identifier artist date title file_path : string) (w : World) :
  conn_open w = true ->
  unique_identifier (songs w) ->
  identifier ∈ s_identifier <$> songs w ->
  cache_song identifier artist date title file_path w = (Return VNone, w) ∧
  length (filter (fun s => s_identifier s = identifier) (songs w)) = 1.
Proof.
  intros Hopen Huniq Hin. split.
  - rewrite cache_song_open by done.
    rewrite insert_or_ignore_present by done. by rewrite set_songs_same.
  - by apply unique_identifier_count.
Qed.

(** Inserting the same identifier twice, from any table: the second call
    changes nothing and one row carries the identifier. *)
Lemma cache_song_twice identifier a1 d1 t1 p1 a2 d2 t2 p2 w :
  conn_open w = true ->
  unique_identifier (songs w) ->
  let w1 := (cache_song identifier a1 d1 t1 p1 w).2 in
  cache_song identifier a2 d2 t2 p2 w1 = (Return VNone, w1) ∧
  length (filter (fun s => s_identifier s = identifier) (songs w1)) = 1 ∧
  unique_identifier (songs w1).
Proof.
  intros Hopen Huniq w1. subst w1.
  rewrite (cache_song_open identifier a1 d1 t1 p1 w) by done. simpl.
  pose proof (insert_or_ignore_records (songs w) identifier a1 d1 t1 p1) as Hin.
  pose proof (insert_or_ignore_unique _ identifier a1 d1 t1 p1 Huniq) as Hu.
  split; [|split; [apply unique_identifier_count; [exact Hu|exact Hin]|exact Hu]].
  rewrite cache_song_open by done. simpl.
  rewrite insert_or_ignore_present by done.
  by destruct w.
Qed.

(** In general: a batch adds no row when the identifier of the item is
    already in the table, and one row, for its first file, when it is
    not. *)
Lemma record_all_present t item_id artist date destdir names :
  item_id ∈ s_identifier <$> t ->
  record_all t item_id artist date destdir names = t.
Proof.
  intros Hin. induction names as [|name rest IH]; simpl; [done|].
  by rewrite insert_or_ignore_present.
Qed.

Lemma record_all_absent t item_id artist date destdir name rest :
  item_id ∉ s_identifier <$> t ->
  record_all t item_id artist date destdir (name :: rest) =
    t ++ [mkSong (next_rowid t) item_id name artist date (posix_join destdir [item_id; name])].
Proof.
  intros Hnew. simpl. rewrite insert_or_ignore_absent by done.
  apply record_all_present. rewrite fmap_app. apply elem_of_app. right. left.
Qed.

(** ** Listing the cached shows *)

Global Instance show_le_total : Total show_le.
Proof.
  intros x y. unfold show_le.
  destruct (decide (x.1 = y.1)) as [Heq|Hne].
  - rewrite decide_True by done. apply (total String.le).
  - rewrite decide_False by congruence. apply (total String.le).
Qed.

Global Instance show_le_trans : Transitive show_le.
Proof.
  intros x y z. unfold show_le.
  destruct (decide (x.1 = y.1)) as [Hxy|Hxy], (decide (y.1 = z.1)) as [Hyz|Hyz].
  - rewrite decide_True by congruence. apply transitivity.
  - rewrite decide_False by congruence. by rewrite Hxy.
  - rewrite decide_False by congruence. by rewrite <- Hyz.
  - intros H1 H2. case_decide as Hxz.
    + exfalso. apply Hxy. apply (anti_symm String.le); [done|]. by rewrite Hxz.
    + by etrans.
Qed.

Lemma show_le_lt x y : show_le x y -> x ≠ y -> show_lt x y.
Proof.
  unfold show_le, show_lt. destruct x as [a d], y as [a' d']; simpl.
  case_decide as Heq; intros Hle Hne.
  - right. split; [done|]. apply strict_spec_alt. split; [done|]. congruence.
  - left. by apply strict_spec_alt.
Qed.

Lemma show_lt_irrefl x : ¬ show_lt x x.
Proof. intros [H|[_ H]]; by apply (irreflexivity (strict String.le)) in H. Qed.

Lemma strongly_sorted_strict (l : list (string * string)) :
  StronglySorted show_le l -> NoDup l -> StronglySorted show_lt l.
Proof.
  induction 1 as [|x l Hsorted IH Hall]; intros Hnd; constructor.
  - apply IH. by apply NoDup_cons in Hnd as [_ ?].
  - apply NoDup_cons in Hnd as [Hx _].
    apply Forall_forall. intros y Hy. apply show_le_lt.
    + by apply (proj1 (Forall_forall _ _) Hall).
    + intros ->. done.
Qed.

Lemma elem_of_select_distinct_shows t artist date :
  (artist, date) ∈ select_distinct_shows t <->
  ∃ s, s ∈ t ∧ s_artist s = artist ∧ s_date s = date.
Proof.
  unfold select_distinct_shows.
  rewrite merge_sort_Permutation, elem_of_remove_dups, list_elem_of_fmap.
  split.
  - intros (s & Heq & Hin). exists s. by simplify_eq.
  - intros (s & Hin & <- & <-). by exists s.
Qed.

Lemma NoDup_select_distinct_shows t : NoDup (select_distinct_shows t).
Proof.
  unfold select_distinct_shows. rewrite merge_sort_Permutation.
  apply NoDup_remove_dups.
Qed.

Lemma select_distinct_shows_sorted t :
  StronglySorted show_lt (select_distinct_shows t).
Proof.
  apply strongly_sorted_strict; [|apply NoDup_select_distinct_shows].
  apply StronglySorted_merge_sort; apply _.
Qed.

Lemma print_shows_run shows w :
  print_shows shows w = (Return tt, set_stdout (stdout w ++ (show_line <$> shows)) w).
Proof.
  revert w. induction shows as [|[artist date] rest IH]; intros w; simpl.
  - unfold ret. rewrite app_nil_r. by destruct w.
  - unfold bind, print. rewrite IH. simpl. by rewrite <- (assoc_L (++)).
Qed.

(** C7 (as amended).  [list_cached_shows] returns [None]; what it lists
    goes to standard output: one line [artist - date] for every distinct
    pair of the table, each once, in increasing order of artist and then
    of date, after the line [No cached shows found.] when there is none. *)
Theorem list_cached_shows_prints (w : World) :
  conn_open w = true ->
  let shows := select_distinct_shows (songs w) in
  let header := match shows with [] => ["No cached shows found."] | _ :: _ => [] end in
  list_cached_shows w =
    (Return VNone, set_stdout (stdout w ++ header ++ (show_line <$> shows)) w) ∧
  (∀ artist date, (artist, date) ∈ shows <->
     ∃ s, s ∈ songs w ∧ s_artist s = artist ∧ s_date s = date) ∧
  NoDup shows ∧
  StronglySorted show_lt shows.
Proof.
  intros Hopen shows header.
  split; [|split; [|split]].
  - unfold list_cached_shows, with_conn, bind. rewrite Hopen.
    rewrite set_songs_same. fold shows.
    destruct shows as [|x rest] eqn:Hshows; subst header.
    + unfold print at 1. rewrite print_shows_run. simpl. unfold ret.
      by rewrite app_nil_r.
    + unfold ret at 1. rewrite print_shows_run. by unfold ret.
  - intros artist date. apply elem_of_select_distinct_shows.
  - apply NoDup_select_distinct_shows.
  - apply select_distinct_shows_sorted.
Qed.

(** C7, as stated, fails on the value returned: after the two inserts of
    the specification the method returns [None], not the list of the two
    pairs, which it prints. *)
Lemma list_cached_shows_returns_none :
  let r := list_cached_shows two_shows_world in
  select_distinct_shows (songs two_shows_world) = [("A", "2020-01-01"); ("B", "2020-01-01")] ∧
  r.1 = Return VNone ∧
  r.1 ≠ Return (VList [VTuple [VStr "A"; VStr "2020-01-01"];
                       VTuple [VStr "B"; VStr "2020-01-01"]]) ∧
  stdout r.2 = ["A - 2020-01-01"; "B - 2020-01-01"].
Proof.
  split; [vm_compute; reflexivity|].
  split; [vm_compute; reflexivity|].
  split; [discriminate|vm_compute; reflexivity].
Qed.

(** ** Recorded paths and the disk *)

Lemma set_songs_set_songs t1 t2 w : set_songs t1 (set_songs t2 w) = set_songs t1 w.
Proof. reflexivity. Qed.

Lemma cache_downloaded_run item_id artist date destdir names acc w :
  conn_open w = true ->
  cache_downloaded (Some destdir) item_id artist date names acc w =
    (Return (acc ++ ((fun n => posix_join destdir [item_id; n]) <$> names)),
     set_songs (record_all (songs w) item_id artist date destdir names) w).
Proof.
  intros Hopen. revert acc w Hopen.
  induction names as [|name rest IH]; intros acc w Hopen.
  - rewrite cache_downloaded_nil. unfold ret. simpl.
    by rewrite app_nil_r, set_songs_same.
  - rewrite cache_downloaded_cons. unfold bind, load_global.
    rewrite lookup_download_dir. simpl.
    unfold os_path_join, ret. cbv beta iota. rewrite cache_song_open by done.
    rewrite IH by done. simpl. by rewrite <- (assoc_L (++)).
Qed.

Lemma elem_of_record_all t item_id artist date destdir names s :
  s ∈ record_all t item_id artist date destdir names ->
  s ∈ t ∨
  ∃ name, name ∈ names ∧
    s_identifier s = item_id ∧ s_artist s = artist ∧ s_date s = date ∧
    s_title s = name ∧ s_file_path s = posix_join destdir [item_id; name].
Proof.
  revert t. induction names as [|name rest IH]; intros t; simpl; [auto|].
  intros Hin. apply IH in Hin as [Hin|(n & Hn & Hs)].
  - unfold insert_or_ignore in Hin. case_decide; [auto|].
    apply elem_of_app in Hin as [Hin|Hin]; [auto|].
    apply list_elem_of_singleton in Hin as ->. right. exists name.
    split; [left|done].
  - right. exists n. split; [by right|done].
Qed.

#[local] Arguments record_all : simpl never.
#[local] Arguments posix_join : simpl never.

(** C8 (as amended).  Nothing in the class looks at the disk when a row
    is inserted or read back: [get_cached_songs] gives the same result
    and [cache_song] leaves the same table on every disk, so a row
    inserted under a new identifier carries the path it was given and
    the lookup for its key returns that path, even when no such file
    exists.  A row inserted by [search_and_download] refers to a file
    present at insert time when [DOWNLOAD_DIR] is bound to a string
    [destdir] and the download call returned having written every
    requested file at [os.path.join(destdir, identifier, name)]. *)
Theorem recorded_paths_exist_if_materialised
    (str_lower : string -> string) (ia : InternetArchive)
    (artist date file_format destdir : string) (w : World)
    (first : SearchResult) (others : list SearchResult) (item : Item)
    (disk' : gset string) :
  cache_miss artist date w ->
  search_items ia (archive_query artist date) = Return (first :: others) ->
  get_item ia (r_identifier first) = Return item ->
  let item_id := r_identifier first in
  let audio_files := audio_files_of str_lower item file_format in
  download ia item_id audio_files (VStr destdir) (disk w) = (Return tt, disk') ->
  (∀ name, name ∈ audio_files -> posix_join destdir [item_id; name] ∈ disk') ->
  let r := search_and_download str_lower ia (Some destdir) artist date file_format w in
  r.1 = Return (str_list ((fun n => posix_join destdir [item_id; n]) <$> audio_files)) ∧
  (∀ s, s ∈ songs r.2 -> s ∈ songs w ∨ (disk r.2 = disk' ∧ s_file_path s ∈ disk')) ∧
  (∀ d a dt, (get_cached_songs a dt (set_disk d w)).1 = (get_cached_songs a dt w).1) ∧
  (∀ d i a dt t p,
     songs (cache_song i a dt t p (set_disk d w)).2 = songs (cache_song i a dt t p w).2) ∧
  (∀ d i a dt t p,
     i ∉ s_identifier <$> songs w ->
     let w1 := (cache_song i a dt t p (set_disk d w)).2 in
     (∃ s, s ∈ songs w1 ∧ s_identifier s = i ∧ s_artist s = a ∧ s_date s = dt ∧
           s_title s = t ∧ s_file_path s = p) ∧
     (∃ paths, get_cached_songs a dt w1 = (Return (str_list paths), w1) ∧ p ∈ paths)).
Proof.
  intros Hmiss Hsearch Hitem item_id audio_files Hdl Hdisk r.
  assert (Hopen : conn_open w = true) by (by apply cache_miss_iff in Hmiss as [? _]).
  assert (Hstore :
    (∀ d a dt, (get_cached_songs a dt (set_disk d w)).1 = (get_cached_songs a dt w).1) ∧
    (∀ d i a dt t p,
       songs (cache_song i a dt t p (set_disk d w)).2 = songs (cache_song i a dt t p w).2) ∧
    (∀ d i a dt t p,
       i ∉ s_identifier <$> songs w ->
       let w1 := (cache_song i a dt t p (set_disk d w)).2 in
       (∃ s, s ∈ songs w1 ∧ s_identifier s = i ∧ s_artist s = a ∧ s_date s = dt ∧
             s_title s = t ∧ s_file_path s = p) ∧
       (∃ paths, get_cached_songs a dt w1 = (Return (str_list paths), w1) ∧ p ∈ paths))).
  { split; [|split]; intros; rewrite ?get_cached_songs_open, ?cache_song_open by done;
      [done..|].
    subst w1. rewrite cache_song_open by done. simpl.
    rewrite insert_or_ignore_absent by done. split.
    - eexists. split; [apply elem_of_app; right; left|]. done.
    - eexists. split; [by rewrite get_cached_songs_open|].
      unfold select_file_paths. simpl. rewrite filter_app, fmap_app.
      apply elem_of_app. right. rewrite filter_cons_True by done. left. }
  destruct Hstore as (Hread & Hinsert & Hrecorded).
  destruct r as [o w'] eqn:Hrun. subst r. simpl.
  unfold search_and_download, bind in Hrun. rewrite Hmiss in Hrun.
  run in Hrun. rewrite Hsearch, Hitem in Hrun.
  fold item_id audio_files in Hrun |- *.
  destruct audio_files as [|a rest] eqn:Haudio.
  { simplify_eq. simpl. auto. }
  simpl in Hrun. rewrite Hdl in Hrun.
  rewrite (cache_downloaded_run item_id artist date destdir) in Hrun by done.
  simplify_eq. simpl. split; [done|]. split; [|done].
  intros s Hs. apply elem_of_record_all in Hs as [Hs|(name & Hname & _ & _ & _ & _ & Hpath)].
  - by left.
  - right. split; [done|]. rewrite Hpath. by apply Hdisk.
Qed.

(** Through [search_and_download] as well, were [DOWNLOAD_DIR] bound:
    when the download call returns without having written anything, the
    path is recorded and returned all the same. *)
Lemma download_may_write_nothing :
  let r := search_and_download ascii_lower two_candidates_archive (Some "downloads")
             "Phish" "1999-12-31" "flac" fresh_world in
  r.1 = Return (str_list ["downloads/show-flac/set1.flac"]) ∧
  disk r.2 = ∅ ∧
  s_file_path <$> songs r.2 = ["downloads/show-flac/set1.flac"].
Proof. repeat split; vm_compute; reflexivity. Qed.

(** C8, as stated, fails: [cache_song] records a path that was never on
    disk, and both the lookup and the cache-hit path of
    [search_and_download] hand it to the caller. *)
Lemma recorded_path_need_not_exist :
  let inserted := cache_song "item-x" "A" "2020-01-01" "x.mp3" "missing/x.mp3" fresh_world in
  let w1 := inserted.2 in
("missing/x.mp3" ∉ disk fresh_world) ∧
  inserted.1 = Return VNone ∧
  disk w1 = disk fresh_world ∧
  get_cached_songs "A" "2020-01-01" w1 = (Return (str_list ["missing/x.mp3"]), w1) ∧
  (search_and_download ascii_lower empty_archive None "A" "2020-01-01" "mp3" w1).1 =
    Return (str_list ["missing/x.mp3"]).
Proof.
  split; [apply not_elem_of_empty|].
  repeat split; vm_compute; reflexivity.
Qed.

(** ** Playback *)

Lemma length_stopped_players w :
  length (stopped_players w) = length (media_players w).
Proof. unfold stopped_players. destruct (player w); [apply length_alter|done]. Qed.

Lemma stopped_players_quiet w h m :
  playback_inv w -> stopped_players w !! h = Some m -> mp_playing m = false.
Proof.
  intros [Hinv _]. unfold stopped_players.
  destruct (player w) as [h0|] eqn:Hplayer.
  - rewrite list_lookup_alter. case_decide as Heq.
    + subst. destruct (media_players w !! h); intros; by simplify_eq/=.
    + intros Hm. destruct (mp_playing m) eqn:Hplaying; [|done].
      apply Hinv in Hm; [|done]. congruence.
  - intros Hm. destruct (mp_playing m) eqn:Hplaying; [|done].
    apply Hinv in Hm; [|done]. congruence.
Qed.

(** Appending a playing object to objects that are all stopped leaves it
    the only one playing. *)
Lemma playing_handles_snoc (l : list MediaPlayer) path :
  (∀ h m, l !! h = Some m -> mp_playing m = false) ->
  playing_handles (l ++ [mkMediaPlayer path true]) = [length l].
Proof.
  intros Hquiet. unfold playing_handles.
  rewrite length_app. simpl. rewrite seq_app, filter_app. simpl.
  rewrite filter_none.
  - rewrite filter_cons_True; [done|]. by rewrite list_lookup_middle.
  - intros h Hh. apply elem_of_seq in Hh as [_ Hh]. simpl in Hh.
    rewrite lookup_app_l by done.
    destruct (l !! h) as [m|] eqn:Hm; [|done]. simpl.
    by rewrite (Hquiet h m Hm).
Qed.

Lemma alter_snoc {A} (f : A -> A) (l : list A) (x : A) (n : nat) :
  n = length l -> alter f n (l ++ [x]) = l ++ [f x].
Proof.
  intros ->. rewrite <- (Nat.add_0_r (length l)). by rewrite alter_app_r.
Qed.

Lemma play_song_run file_path w :
  file_path ∈ disk w ->
  let h := length (media_players w) in
  play_song file_path w =
    (Return VNone,
     mkWorld (conn_open w) (songs w) (disk w)
       (stdout w ++ ["Playing: " +:+ file_path])
       (events w ++ stop_current w ++ [VlcMediaPlayer h file_path; VlcPlay h])
       (stopped_players w ++ [mkMediaPlayer file_path true])
       (Some h)).
Proof.
  intros Hfile h. unfold play_song, vlc_MediaPlayer, vlc_play, vlc_stop.
  run. rewrite bool_decide_eq_true_2 by done. simpl.
  unfold stopped_players, stop_current. subst h.
  destruct (player w) as [h0|];
    unfold set_events, set_media_players, set_player, set_stdout;
    cbn [conn_open songs disk stdout events media_players player];
    rewrite ?length_alter, alter_snoc by (by rewrite ?length_alter);
    rewrite <- !(assoc_L (++)); reflexivity.
Qed.

Lemma playback_inv_initial b t d o e : playback_inv (mkWorld b t d o e [] None).
Proof. split; simpl; [intros h m Hm; by rewrite lookup_nil in Hm|done]. Qed.

Lemma play_song_keeps_inv file_path w :
  playback_inv w -> playback_inv (play_song file_path w).2.
Proof.
  intros Hinv. destruct (decide (file_path ∈ disk w)) as [Hfile|Hfile].
  - rewrite play_song_run by done. simpl. split; simpl.
    + intros h m Hm Hplaying.
      destruct (decide (h < length (stopped_players w))) as [Hlt|Hge].
      * rewrite lookup_app_l in Hm by done.
        by rewrite (stopped_players_quiet w h m) in Hplaying.
      * apply lookup_lt_Some in Hm. rewrite length_app in Hm. simpl in Hm.
        rewrite length_stopped_players in Hm, Hge. f_equal. lia.
    + intros h [= <-]. rewrite length_app, length_stopped_players. simpl. lia.
  - unfold play_song. run. by rewrite bool_decide_eq_false_2 by done.
Qed.

Lemma stop_playback_keeps_inv w :
  playback_inv w -> playback_inv (stop_playback w).2.
Proof.
  intros [Hone Hreal]. unfold stop_playback, vlc_stop. run.
  destruct (player w) as [h0|] eqn:Hplayer; simpl; [|by split; rewrite ?Hplayer].
  split; simpl.
  - intros h m. rewrite list_lookup_alter. case_decide as Heq.
    + subst. destruct (media_players w !! h); intros; by simplify_eq/=.
    + intros Hm Hplaying. rewrite Hplayer. by apply (Hone h m).
  - intros h Hh. rewrite length_alter. apply Hreal. congruence.
Qed.

Lemma playback_inv_same w w' :
  same_playback w w' -> playback_inv w -> playback_inv w'.
Proof. intros [Hm Hp] [Hone Hreal]. unfold playback_inv. by rewrite Hm, Hp. Qed.

(** The methods of the store and of the acquisition leave the playback
    state alone. *)
Lemma with_conn_same_playback {A} (stmt : list Song -> A * list Song) w :
  same_playback w (with_conn stmt w).2.
Proof.
  unfold with_conn. destruct (conn_open w); [|done]. by destruct (stmt (songs w)).
Qed.

Lemma cache_song_same_playback identifier artist date title file_path w :
  same_playback w (cache_song identifier artist date title file_path w).2.
Proof. apply with_conn_same_playback. Qed.

Lemma list_cached_shows_same_playback w :
  same_playback w (list_cached_shows w).2.
Proof.
  unfold list_cached_shows, with_conn, bind.
  destruct (conn_open w); [|done]. simpl.
  destruct (select_distinct_shows (songs w)); unfold print, ret;
    rewrite print_shows_run; done.
Qed.

Lemma search_and_download_same_playback str_lower ia download_dir artist date file_format w :
  same_playback w (search_and_download str_lower ia download_dir artist date file_format w).2.
Proof.
  destruct (search_and_download _ _ _ _ _ _ _) as [o w'] eqn:Hrun. simpl.
  unfold search_and_download, bind, get_cached_songs, with_conn in Hrun.
  destruct (conn_open w); [|by simplify_eq].
  destruct (select_file_paths (songs w) artist date) as [|p ps]; run in Hrun;
    [|by simplify_eq].
  destruct (search_items ia _) as [[|first others]|e]; try by simplify_eq.
  destruct (get_item ia _) as [item|e]; [|by simplify_eq].
  destruct (audio_files_of _ _ _) as [|a rest]; [by simplify_eq|].
  rewrite lookup_download_dir in Hrun.
  destruct download_dir as [destdir|]; simpl in Hrun; [|by simplify_eq].
  destruct (download ia _ _ _ _) as [[[]|e] d']; [|by simplify_eq].
  destruct (cache_downloaded _ _ _ _ _ _ _) as [[v|e] w''] eqn:Hloop;
    apply cache_downloaded_frame in Hloop as (_ & _ & _ & _ & Hm & Hp);
    simplify_eq; split; simpl; by rewrite ?Hm, ?Hp.
Qed.

(** Between two calls at most one media player is playing. *)
Lemma playback_inv_at_most_one w :
  playback_inv w -> (length (active_handles w) <= 1)%nat.
Proof.
  intros [Hone _].
  assert (Hnd : NoDup (active_handles w)) by apply NoDup_filter, NoDup_seq.
  assert (Hall : ∀ h, h ∈ active_handles w -> player w = Some h).
  { intros h Hh. apply list_elem_of_filter in Hh as [Hh _].
    destruct (media_players w !! h) as [m|] eqn:Hm; [|done].
    apply (Hone h m Hm). simpl in Hh. congruence. }
  destruct (active_handles w) as [|a [|b l]]; simpl; [lia..|].
  exfalso. apply NoDup_cons in Hnd as [Ha _]. apply Ha.
  assert (a = b) as ->; [|left].
  pose proof (Hall a ltac:(left)) as H1.
  pose proof (Hall b ltac:(right; left)) as H2. congruence.
Qed.

(** C9.  From a state in which only [self.player] may be playing,
    [play_song] on a path that exists sends a stop to the current player,
    if there is one, before it creates and starts the new one; afterwards
    the new one is the only media player playing.  After
    [play_song pathA] then [play_song pathB] the only one playing is the
    player of [pathB], and the log has the stop of the player of
    [pathA] between its start and the creation of the one for [pathB]. *)
Theorem playback_mutual_exclusion (pathA pathB : string) (w : World) :
  playback_inv w ->
  pathA ∈ disk w ->
  pathB ∈ disk w ->
  let hA := length (media_players w) in
  let hB := S hA in
  let r1 := play_song pathA w in
  let r2 := (play_song pathA ;; play_song pathB) w in
  r1.1 = Return VNone ∧
  active_handles r1.2 = [hA] ∧
  player r1.2 = Some hA ∧
  events r1.2 = events w ++ stop_current w ++ [VlcMediaPlayer hA pathA; VlcPlay hA] ∧
  playback_inv r1.2 ∧
  r2.1 = Return VNone ∧
  active_handles r2.2 = [hB] ∧
  player r2.2 = Some hB ∧
  media_players r2.2 !! hB = Some (mkMediaPlayer pathB true) ∧
  media_players r2.2 !! hA = Some (mkMediaPlayer pathA false) ∧
  events r2.2 =
    events w ++ stop_current w ++
      [VlcMediaPlayer hA pathA; VlcPlay hA; VlcStop hA; VlcMediaPlayer hB pathB; VlcPlay hB].
Proof.
  intros Hinv HA HB hA hB r1 r2.
  pose proof (play_song_keeps_inv pathA w Hinv) as Hinv1. fold r1 in Hinv1.
  assert (Hr1 : r1 = play_song pathA w) by done.
  rewrite play_song_run in Hr1 by done. fold hA in Hr1.
  assert (Hr2 : r2 = play_song pathB r1.2).
  { subst r2. unfold bind. fold r1. by rewrite Hr1. }
  assert (HB1 : pathB ∈ disk r1.2) by (by rewrite Hr1).
  rewrite play_song_run in Hr2 by done.
  assert (Hlen1 : length (media_players r1.2) = hB).
  { rewrite Hr1. simpl. rewrite length_app, length_stopped_players. simpl. lia. }
  rewrite Hlen1 in Hr2.
  assert (Hstop1 : stopped_players r1.2 = stopped_players w ++ [mkMediaPlayer pathA false]).
  { rewrite Hr1. unfold stopped_players at 1. simpl.
    rewrite alter_snoc; [done|]. by rewrite length_stopped_players. }
  split; [by rewrite Hr1|].
  split.
  { rewrite Hr1. unfold active_handles. simpl.
    rewrite playing_handles_snoc by (intros h m; by apply stopped_players_quiet).
    by rewrite length_stopped_players. }
  split; [by rewrite Hr1|]. split; [by rewrite Hr1|]. split; [done|].
  split; [by rewrite Hr2|].
  split.
  { rewrite Hr2. unfold active_handles. simpl.
    rewrite playing_handles_snoc by (intros h m; by apply stopped_players_quiet).
    by rewrite length_stopped_players, Hlen1. }
  split; [by rewrite Hr2|].
  split.
  { rewrite Hr2. simpl. rewrite <- Hlen1, <- length_stopped_players.
    by rewrite list_lookup_middle. }
  split.
  { rewrite Hr2. simpl. rewrite Hstop1. rewrite <- (assoc_L (++)). simpl.
    unfold hA. rewrite <- length_stopped_players. by rewrite list_lookup_middle. }
  rewrite Hr2. simpl. rewrite Hr1. unfold stop_current at 2. simpl.
  by rewrite <- !(assoc_L (++)).
Qed.

(** C10.  [play_song] on a path that is not on disk prints
    [File not found: path] and returns [None] without raising; the
    current player, every media player and the log of library calls are
    as before, so no stop was sent and nothing was started. *)
Theorem play_song_missing_file (file_path : string) (w : World) :
  file_path ∉ disk w ->
  let r := play_song file_path w in
  r = (Return VNone, set_stdout (stdout w ++ ["File not found: " +:+ file_path]) w) ∧
  player r.2 = player w ∧
  media_players r.2 = media_players w ∧
  active_handles r.2 = active_handles w ∧
  events r.2 = events w.
Proof.
  intros Hfile r.
  assert (Hr : r = (Return VNone,
                    set_stdout (stdout w ++ ["File not found: " +:+ file_path]) w)).
  { subst r. unfold play_song. run. by rewrite bool_decide_eq_false_2 by done. }
  by rewrite Hr.
Qed.

(** ** [ascii_lower] compares without regard to case *)

Lemma ascii_cases (P : ascii -> Prop) :
  Forall P (ascii_of_nat <$> seq 0 256) -> ∀ c, P c.
Proof.
  intros H c. rewrite <- (ascii_nat_embedding c).
  apply (proj1 (Forall_forall _ _) H), list_elem_of_fmap.
  exists (nat_of_ascii c). split; [done|].
  apply elem_of_seq. pose proof (nat_ascii_bounded c). lia.
Qed.

Lemma lower_char_eq_iff c d : lower_char c = lower_char d <-> same_letter c d.
Proof.
  pose (all := ascii_of_nat <$> seq 0 256).
  assert (H : Forall (fun c => Forall (fun d =>
                lower_char c = lower_char d <-> same_letter c d) all) all).
  { apply (bool_decide_unpack _). by vm_compute. }
  assert (H' : Forall (fun c => ∀ d, lower_char c = lower_char d <-> same_letter c d) all).
  { eapply Forall_impl; [exact H|]. intros c' Hc. exact (ascii_cases _ Hc). }
  exact (ascii_cases _ H' c d).
Qed.

Lemma ascii_lower_eq_iff s t : ascii_lower s = ascii_lower t <-> eq_ignoring_case s t.
Proof.
  revert t. induction s as [|c s IH]; intros [|d t]; simpl; try (split; [discriminate|done]).
  { done. }
  rewrite <- IH, <- lower_char_eq_iff. split.
  - intros [= ? ?]. done.
  - intros [-> ->]. done.
Qed.

(** * Instances on the example inputs *)

Lemma cache_hit_short_circuit_witness :
  cache_hit "A" "2020-01-01" ["downloads/item-a/a.mp3"] two_shows_world ∧
  (search_and_download ascii_lower one_show_archive None
     "A" "2020-01-01" "mp3" two_shows_world).1 =
    Return (str_list ["downloads/item-a/a.mp3"]).
Proof.
  assert (Hhit : cache_hit "A" "2020-01-01" ["downloads/item-a/a.mp3"] two_shows_world).
  { split; [vm_compute; reflexivity|discriminate]. }
  split; [exact Hhit|].
  exact (proj1 (cache_hit_short_circuit ascii_lower one_show_archive None
                  "A" "2020-01-01" "mp3" _ two_shows_world Hhit)).
Defined.

Lemma no_results_returns_empty_witness :
  cache_miss "Nobody" "1900-01-01" fresh_world ∧
  search_items empty_archive (archive_query "Nobody" "1900-01-01") = Return [] ∧
  (search_and_download ascii_lower empty_archive None
     "Nobody" "1900-01-01" "mp3" fresh_world).1 = Return (VList []).
Proof.
  assert (Hmiss : cache_miss "Nobody" "1900-01-01" fresh_world) by reflexivity.
  assert (Hsearch : search_items empty_archive (archive_query "Nobody" "1900-01-01") = Return [])
    by reflexivity.
  split; [exact Hmiss|]. split; [exact Hsearch|].
  exact (proj1 (no_results_returns_empty ascii_lower empty_archive None
                  "Nobody" "1900-01-01" "mp3" fresh_world Hmiss Hsearch)).
Defined.

Lemma download_dir_name_error_witness :
  cache_miss "GratefulDead" "1972-09-03" fresh_world ∧
  audio_files_of ascii_lower
    (mkItem [mkFileEntry "track1.mp3" "MP3"; mkFileEntry "track1.flac" "Flac";
             mkFileEntry "track2.mp3" "mp3"]) "mp3" ≠ [] ∧
  (search_and_download ascii_lower one_show_archive None
     "GratefulDead" "1972-09-03" "mp3" fresh_world).1 = Raise (NameError "DOWNLOAD_DIR").
Proof.
  assert (Hmiss : cache_miss "GratefulDead" "1972-09-03" fresh_world) by reflexivity.
  assert (Hfiles : audio_files_of ascii_lower
    (mkItem [mkFileEntry "track1.mp3" "MP3"; mkFileEntry "track1.flac" "Flac";
             mkFileEntry "track2.mp3" "mp3"]) "mp3" ≠ []) by discriminate.
  split; [exact Hmiss|]. split; [exact Hfiles|].
  exact (proj1 (proj2 (download_dir_name_error ascii_lower one_show_archive
                  "GratefulDead" "1972-09-03" "mp3" fresh_world
                  (mkSearchResult "gd1972-09-03") [] _ Hmiss eq_refl eq_refl Hfiles))).
Defined.

Lemma insert_idempotent_witness :
  conn_open two_shows_world = true ∧
  unique_identifier (songs two_shows_world) ∧
  "item-a" ∈ s_identifier <$> songs two_shows_world ∧
  cache_song "item-a" "A" "2020-01-01" "other.mp3" "downloads/item-a/other.mp3" two_shows_world =
    (Return VNone, two_shows_world).
Proof.
  assert (Hopen : conn_open two_shows_world = true) by reflexivity.
  assert (Huniq : unique_identifier (songs two_shows_world)).
  { apply (bool_decide_unpack _). by vm_compute. }
  assert (Hin : "item-a" ∈ s_identifier <$> songs two_shows_world).
  { apply (bool_decide_unpack _). by vm_compute. }
  split; [exact Hopen|]. split; [exact Huniq|]. split; [exact Hin|].
  exact (proj1 (insert_idempotent "item-a" "A" "2020-01-01" "other.mp3"
                  "downloads/item-a/other.mp3" two_shows_world Hopen Huniq Hin)).
Defined.

Lemma list_cached_shows_prints_witness :
  conn_open two_shows_world = true ∧
  list_cached_shows two_shows_world =
    (Return VNone,
     set_stdout (stdout two_shows_world ++ [] ++
                 (show_line <$> [("A", "2020-01-01"); ("B", "2020-01-01")]))
       two_shows_world).
Proof.
  assert (Hopen : conn_open two_shows_world = true) by reflexivity.
  split; [exact Hopen|].
  exact (proj1 (list_cached_shows_prints two_shows_world Hopen)).
Defined.

Lemma recorded_paths_exist_if_materialised_witness :
  let r := search_and_download ascii_lower one_show_archive (Some "downloads")
             "GratefulDead" "1972-09-03" "mp3" fresh_world in
  cache_miss "GratefulDead" "1972-09-03" fresh_world ∧
  ∀ s, s ∈ songs r.2 ->
       s ∈ songs fresh_world ∨
       (disk r.2 = {["downloads/gd1972-09-03/track1.mp3"; "downloads/gd1972-09-03/track2.mp3"]} ∧
        s_file_path s ∈ ({["downloads/gd1972-09-03/track1.mp3";
                           "downloads/gd1972-09-03/track2.mp3"]} : gset string)).
Proof.
  intros r.
  assert (Hmiss : cache_miss "GratefulDead" "1972-09-03" fresh_world) by reflexivity.
  split; [exact Hmiss|].
  refine (proj1 (proj2 (recorded_paths_exist_if_materialised ascii_lower one_show_archive
                  "GratefulDead" "1972-09-03" "mp3" "downloads" fresh_world
                  (mkSearchResult "gd1972-09-03") [] _ _ Hmiss eq_refl eq_refl _ _))).
  - vm_compute. reflexivity.
  - intros name Hname. apply (bool_decide_unpack _).
    apply elem_of_cons in Hname as [->|Hname]; [by vm_compute|].
    apply elem_of_cons in Hname as [->|Hname]; [by vm_compute|].
    by apply elem_of_nil in Hname.
Defined.

Lemma playback_mutual_exclusion_witness :
  let r2 := (play_song "music/a.mp3" ;; play_song "music/b.mp3") two_files_world in
  playback_inv two_files_world ∧
  "music/a.mp3" ∈ disk two_files_world ∧
  "music/b.mp3" ∈ disk two_files_world ∧
  active_handles r2.2 = [1] ∧
  events r2.2 =
    [VlcMediaPlayer 0 "music/a.mp3"; VlcPlay 0; VlcStop 0;
     VlcMediaPlayer 1 "music/b.mp3"; VlcPlay 1].
Proof.
  intros r2.
  assert (Hinv : playback_inv two_files_world).
  { split; simpl; [intros h m Hm; by rewrite lookup_nil in Hm|discriminate]. }
  assert (HA : "music/a.mp3" ∈ disk two_files_world) by (vm_compute; reflexivity).
  assert (HB : "music/b.mp3" ∈ disk two_files_world) by (vm_compute; reflexivity).
  split; [exact Hinv|]. split; [exact HA|]. split; [exact HB|].
  pose proof (playback_mutual_exclusion "music/a.mp3" "music/b.mp3" two_files_world
                Hinv HA HB) as (_ & _ & _ & _ & _ & _ & Hactive & _ & _ & _ & Hevents).
  split; [exact Hactive|exact Hevents].
Defined.

Lemma play_song_missing_file_witness :
  ("music/none.mp3" ∉ disk two_files_world) ∧
  play_song "music/none.mp3" two_files_world =
    (Return VNone,
     set_stdout (stdout two_files_world ++ ["File not found: music/none.mp3"])
       two_files_world).
Proof.
  assert (Hfile : "music/none.mp3" ∉ disk two_files_world).
  { apply (bool_decide_unpack _). by vm_compute. }
  split; [exact Hfile|].
  exact (proj1 (play_song_missing_file "music/none.mp3" two_files_world Hfile)).
Defined.

(** * Further properties of the class *)

(** ** Store: insert, lookup, listing *)

Lemma select_file_paths_app t1 t2 artist date :
  select_file_paths (t1 ++ t2) artist date =
    select_file_paths t1 artist date ++ select_file_paths t2 artist date.
Proof. unfold select_file_paths. by rewrite filter_app, fmap_app. Qed.

Lemma select_file_paths_nil_iff t artist date :
  select_file_paths t artist date = [] <->
  ∀ s, s ∈ t -> ¬ (s_artist s = artist ∧ s_date s = date).
Proof.
  unfold select_file_paths. split.
  - intros Hnil s Hs Hkey.
    assert (Hin : s_file_path s ∈
              s_file_path <$> filter (fun r => s_artist r = artist ∧ s_date r = date) t).
    { apply list_elem_of_fmap. exists s. split; [done|]. by apply list_elem_of_filter. }
    rewrite Hnil in Hin. by apply elem_of_nil in Hin.
  - intros Hnone. by rewrite filter_none.
Qed.

(** A new row takes the next rowid, so the one after it is one more. *)
Lemma next_rowid_snoc t row :
  s_id row = next_rowid t -> next_rowid (t ++ [row]) = (next_rowid t + 1)%Z.
Proof.
  intros Hid. unfold next_rowid in *. rewrite fmap_app. simpl.
  destruct (s_id <$> t) as [|i rest]; simpl; [lia|].
  rewrite foldl_app. simpl. lia.
Qed.

Lemma adds_at_most_one_room n t t' :
  adds_at_most_one t t' -> rowid_room (S n) t -> rowid_room n t'.
Proof.
  unfold rowid_room. intros [->|(row & -> & Hid)] Hroom; [lia|].
  rewrite next_rowid_snoc by done. lia.
Qed.

Lemma insert_or_ignore_adds t identifier artist date title file_path :
  adds_at_most_one t (insert_or_ignore t identifier artist date title file_path).
Proof.
  unfold insert_or_ignore. case_decide; [by left|]. right. by eexists.
Qed.

Lemma with_conn_adds {A} (stmt : list Song -> A * list Song) w :
  (∀ t, adds_at_most_one t (stmt t).2) ->
  adds_at_most_one (songs w) (songs (with_conn stmt w).2).
Proof.
  intros Hstmt. unfold with_conn. destruct (conn_open w); [|by left].
  specialize (Hstmt (songs w)). by destruct (stmt (songs w)).
Qed.

Lemma cache_song_adds identifier artist date title file_path w :
  adds_at_most_one (songs w) (songs (cache_song identifier artist date title file_path w).2).
Proof. apply with_conn_adds. intros t. apply insert_or_ignore_adds. Qed.

(** X1.  Insert then lookup.  While the table has room for one more
    rowid, after [cache_song] with an identifier that is not in the table
    the lookup for the artist and date just recorded returns what it
    returned before followed by the new path, and the lookup for any
    other key returns what it returned before; the rowid taken is within
    the 64 bits of sqlite. *)
Theorem insert_then_lookup
    (identifier artist date title file_path : string) (w : World) :
  conn_open w = true ->
  identifier ∉ s_identifier <$> songs w ->
  rowid_room 1 (songs w) ->
  let w1 := (cache_song identifier artist date title file_path w).2 in
  get_cached_songs artist date w1 =
    (Return (str_list (select_file_paths (songs w) artist date ++ [file_path])), w1) ∧
  (∀ artist' date', (artist', date') ≠ (artist, date) ->
     get_cached_songs artist' date' w1 =
       (Return (str_list (select_file_paths (songs w) artist' date')), w1)) ∧
  rowid_room 0 (songs w1).
Proof.
  intros Hopen Hnew Hroom w1.
  assert (Hleft : rowid_room 0 (songs w1)).
  { eapply adds_at_most_one_room; [apply cache_song_adds|done]. }
  split; [|split; [|done]]; [|intros artist' date' Hkey];
    subst w1; rewrite cache_song_open by done; simpl;
    rewrite insert_or_ignore_absent by done;
    rewrite get_cached_songs_open by done; simpl;
    rewrite select_file_paths_app; do 3 f_equal.
  - unfold select_file_paths. by rewrite filter_cons_True.
  - unfold select_file_paths. rewrite filter_cons_False; [by rewrite app_nil_r|].
    simpl. intros [-> ->]. done.
Qed.

Lemma insert_then_lookup_witness :
  conn_open two_shows_world = true ∧
  ("item-c" ∉ s_identifier <$> songs two_shows_world) ∧
  rowid_room 1 (songs two_shows_world) ∧
  get_cached_songs "A" "2020-01-01"
    (cache_song "item-c" "A" "2020-01-01" "c.mp3" "downloads/item-c/c.mp3" two_shows_world).2 =
    (Return (str_list ["downloads/item-a/a.mp3"; "downloads/item-c/c.mp3"]),
     (cache_song "item-c" "A" "2020-01-01" "c.mp3" "downloads/item-c/c.mp3" two_shows_world).2).
Proof.
  assert (Hopen : conn_open two_shows_world = true) by reflexivity.
  assert (Hnew : "item-c" ∉ s_identifier <$> songs two_shows_world).
  { apply (bool_decide_unpack _). by vm_compute. }
  assert (Hroom : rowid_room 1 (songs two_shows_world)).
  { unfold rowid_room. apply (bool_decide_unpack _). by vm_compute. }
  split; [exact Hopen|]. split; [exact Hnew|]. split; [exact Hroom|].
  exact (proj1 (insert_then_lookup "item-c" "A" "2020-01-01" "c.mp3"
                  "downloads/item-c/c.mp3" two_shows_world Hopen Hnew Hroom)).
Defined.

(** X2.  Listing and lookup agree.  On an open connection a pair
    [(artist, date)] is among the shows that [list_cached_shows] reads
    from the table exactly when the lookup for that pair is a cache hit. *)
Theorem listed_iff_cached (artist date : string) (w : World) :
  conn_open w = true ->
  ((artist, date) ∈ select_distinct_shows (songs w) <->
   ∃ paths, cache_hit artist date paths w).
Proof.
  intros Hopen. rewrite elem_of_select_distinct_shows. unfold cache_hit.
  rewrite get_cached_songs_open by done. split.
  - intros (s & Hs & Ha & Hd). exists (select_file_paths (songs w) artist date).
    split; [done|]. intros Hnil.
    apply (proj1 (select_file_paths_nil_iff _ _ _) Hnil s Hs). done.
  - intros (paths & Heq & Hne).
    assert (Hpaths : select_file_paths (songs w) artist date = paths).
    { apply str_list_inj. congruence. }
    destruct paths as [|p rest]; [done|].
    assert (Hp : p ∈ select_file_paths (songs w) artist date) by (rewrite Hpaths; left).
    unfold select_file_paths in Hp.
    apply list_elem_of_fmap in Hp as (s & _ & Hs).
    apply list_elem_of_filter in Hs as [[Ha Hd] Hs]. eauto.
Qed.

Lemma listed_iff_cached_witness :
  conn_open two_shows_world = true ∧
  (("B", "2020-01-01") ∈ select_distinct_shows (songs two_shows_world) <->
   ∃ paths, cache_hit "B" "2020-01-01" paths two_shows_world).
Proof.
  assert (Hopen : conn_open two_shows_world = true) by reflexivity.
  split; [exact Hopen|].
  exact (listed_iff_cached "B" "2020-01-01" two_shows_world Hopen).
Defined.

(** ** Connection life cycle *)

(** X3.  After [cleanup] the store is closed for good: the lookup, the
    insert, the listing and [search_and_download] each raise
    [ProgrammingError] and leave the world exactly as [cleanup] left it,
    so nothing is printed and no library is called; the rows, the disk
    and the media players are as before [cleanup]. *)
Theorem closed_connection_raises
    (str_lower : string -> string) (ia : InternetArchive) (download_dir : option string)
    (identifier artist date title file_path file_format : string) (w : World) :
  let w1 := (cleanup w).2 in
  let closed := Raise (ProgrammingError "Cannot operate on a closed database.") in
  (cleanup w).1 = Return VNone ∧
  songs w1 = songs w ∧ disk w1 = disk w ∧
  media_players w1 = media_players w ∧ player w1 = player w ∧
  get_cached_songs artist date w1 = (closed, w1) ∧
  cache_song identifier artist date title file_path w1 = (closed, w1) ∧
  list_cached_shows w1 = (closed, w1) ∧
  search_and_download str_lower ia download_dir artist date file_format w1 = (closed, w1) ∧
  cleanup w1 = (Return VNone, w1).
Proof. repeat split. Qed.

(** X4.  Close and reopen.  Rows outlive the connection: after [cleanup]
    and a new [__init__] the connection is open, [self.player] is [None],
    the table holds the same rows and every lookup answers as it did on
    the rows before; [__init__] raises nothing, for [DATABASE_FILE] is
    bound in the module. *)
Theorem reopen_keeps_rows
    (download_dir : option string) (artist date : string) (w : World) :
  let r := (cleanup ;; init download_dir) w in
  r.1 = Return tt ∧
  conn_open r.2 = true ∧
  player r.2 = None ∧
  songs r.2 = songs w ∧
  get_cached_songs artist date r.2 =
    (Return (str_list (select_file_paths (songs w) artist date)), r.2).
Proof.
  intros r.
  assert (Hr : r = (Return tt, set_player None (set_conn_open true (set_conn_open false w)))).
  { subst r. unfold cleanup, init, setup_database, bind, load_global.
    by destruct download_dir. }
  rewrite Hr. simpl. repeat split.
Qed.

(** ** What every sequence of calls keeps *)

Lemma inserts_trans t1 t2 t3 : inserts t1 t2 -> inserts t2 t3 -> inserts t1 t3.
Proof. intros H12 H23. induction H23; [done|by constructor]. Qed.

Lemma inserts_prefix t t' : inserts t t' -> t `prefix_of` t'.
Proof.
  induction 1 as [|t' identifier artist date title file_path _ IH]; [done|].
  unfold insert_or_ignore. case_decide; [done|].
  etrans; [exact IH|]. by apply prefix_app_r.
Qed.

Lemma inserts_unique t t' : inserts t t' -> unique_identifier t -> unique_identifier t'.
Proof. induction 1; [done|]. intros Hu. apply insert_or_ignore_unique. auto. Qed.

Lemma foldl_max_bound (l : list Z) (a : Z) :
  (a <= foldl Z.max a l)%Z ∧ ∀ x, x ∈ l -> (x <= foldl Z.max a l)%Z.
Proof.
  revert a. induction l as [|y l IH]; intros a; simpl.
  - split; [lia|]. intros x Hx. by apply elem_of_nil in Hx.
  - destruct (IH (Z.max a y)) as [Hm Hl]. split; [lia|].
    intros x Hx. apply elem_of_cons in Hx as [->|Hx]; [lia|by apply Hl].
Qed.

(** The rowid given to a new row is above every rowid in use. *)
Lemma next_rowid_above t s : s ∈ t -> (s_id s < next_rowid t)%Z.
Proof.
  intros Hs. assert (Hid : s_id s ∈ s_id <$> t) by (apply list_elem_of_fmap; eauto).
  unfold next_rowid. destruct (s_id <$> t) as [|i rest]; [by apply elem_of_nil in Hid|].
  destruct (foldl_max_bound rest i) as [Hi Hrest].
  apply elem_of_cons in Hid as [->|Hid]; [lia|]. specialize (Hrest _ Hid). lia.
Qed.

Lemma insert_or_ignore_rowids t identifier artist date title file_path :
  NoDup (s_id <$> t) ->
  NoDup (s_id <$> insert_or_ignore t identifier artist date title file_path).
Proof.
  intros Hnd. unfold insert_or_ignore. case_decide; [done|].
  rewrite fmap_app. apply NoDup_app. split; [done|]. split; [|apply NoDup_singleton].
  intros x Hx Hx'. simpl in Hx'. apply list_elem_of_singleton in Hx' as ->.
  apply list_elem_of_fmap in Hx as (s & Heq & Hs).
  pose proof (next_rowid_above t s Hs). lia.
Qed.

Lemma inserts_rowids t t' : inserts t t' -> NoDup (s_id <$> t) -> NoDup (s_id <$> t').
Proof. induction 1; [done|]. intros Hnd. apply insert_or_ignore_rowids. auto. Qed.

Lemma with_conn_inserts {A} (stmt : list Song -> A * list Song) w :
  (∀ t, inserts t (stmt t).2) -> inserts (songs w) (songs (with_conn stmt w).2).
Proof.
  intros Hstmt. unfold with_conn. destruct (conn_open w); [|constructor].
  specialize (Hstmt (songs w)). by destruct (stmt (songs w)).
Qed.

Lemma cache_song_inserts identifier artist date title file_path w :
  inserts (songs w) (songs (cache_song identifier artist date title file_path w).2).
Proof. apply with_conn_inserts. intros t. simpl. repeat constructor. Qed.

Lemma cache_downloaded_inserts dd item_id artist date audio_files acc w o w' :
  cache_downloaded dd item_id artist date audio_files acc w = (o, w') ->
  inserts (songs w) (songs w').
Proof.
  revert acc w.
  induction audio_files as [|file_name rest IH]; intros acc w;
    [rewrite cache_downloaded_nil|rewrite cache_downloaded_cons].
  { unfold ret. intros H. simplify_eq. constructor. }
  unfold bind, load_global, os_path_join. rewrite lookup_download_dir.
  destruct dd as [destdir|]; unfold ret, raise; simpl;
    [|intros H; simplify_eq; constructor].
  pose proof (cache_song_inserts item_id artist date file_name
                (posix_join destdir [item_id; file_name]) w) as Hstep.
  destruct (cache_song _ _ _ _ _ w) as [[v|e] w1]; simpl in Hstep.
  - intros H. apply IH in H. by eapply inserts_trans.
  - intros H. by simplify_eq.
Qed.

Lemma search_and_download_inserts str_lower ia download_dir artist date file_format w :
  inserts (songs w)
    (songs (search_and_download str_lower ia download_dir artist date file_format w).2).
Proof.
  destruct (search_and_download _ _ _ _ _ _ _) as [o w'] eqn:Hrun. simpl.
  unfold search_and_download, bind, get_cached_songs, with_conn in Hrun.
  destruct (conn_open w); [|simplify_eq; constructor].
  destruct (select_file_paths (songs w) artist date) as [|p ps]; run in Hrun;
    [|simplify_eq; constructor].
  destruct (search_items ia _) as [[|first others]|e]; try (simplify_eq; constructor).
  destruct (get_item ia _) as [item|e]; [|simplify_eq; constructor].
  destruct (audio_files_of _ _ _) as [|a rest]; [simplify_eq; constructor|].
  rewrite lookup_download_dir in Hrun.
  destruct download_dir as [destdir|]; simpl in Hrun; [|simplify_eq; constructor].
  destruct (download ia _ _ _ _) as [[[]|e] d']; [|simplify_eq; constructor].
  destruct (cache_downloaded _ _ _ _ _ _ _) as [[v|e] w''] eqn:Hloop;
    apply cache_downloaded_inserts in Hloop; by simplify_eq.
Qed.

Lemma play_song_same_store file_path w :
  songs (play_song file_path w).2 = songs w ∧ disk (play_song file_path w).2 = disk w ∧
  conn_open (play_song file_path w).2 = conn_open w.
Proof.
  unfold play_song, vlc_MediaPlayer, vlc_play, vlc_stop. run.
  destruct (bool_decide _); simpl; [|done]. by destruct (player w).
Qed.

Lemma stop_playback_same_store w :
  songs (stop_playback w).2 = songs w ∧ disk (stop_playback w).2 = disk w ∧
  conn_open (stop_playback w).2 = conn_open w.
Proof. unfold stop_playback, vlc_stop. run. by destruct (player w). Qed.

Lemma list_cached_shows_same_store w :
  songs (list_cached_shows w).2 = songs w ∧ disk (list_cached_shows w).2 = disk w.
Proof.
  unfold list_cached_shows, with_conn, bind.
  destruct (conn_open w); [|done]. simpl.
  destruct (select_distinct_shows (songs w)); unfold print, ret;
    rewrite print_shows_run; done.
Qed.

Lemma run_call_inserts str_lower ia download_dir c w :
  inserts (songs w) (songs (run_call str_lower ia download_dir c w).2).
Proof.
  destruct c; simpl.
  - apply search_and_download_inserts.
  - apply with_conn_inserts. intros t. constructor.
  - apply cache_song_inserts.
  - destruct (play_song_same_store file_path w) as [-> _]. constructor.
  - destruct (stop_playback_same_store w) as [-> _]. constructor.
  - destruct (list_cached_shows_same_store w) as [-> _]. constructor.
  - constructor.
Qed.

Lemma run_calls_inserts str_lower ia download_dir calls w :
  inserts (songs w) (songs (run_calls str_lower ia download_dir calls w)).
Proof.
  revert w. induction calls as [|c rest IH]; intros w; simpl; [constructor|].
  eapply inserts_trans; [apply run_call_inserts|apply IH].
Qed.

(** Every row of a batch carries the identifier of the item: once it is
    in the table the remaining inserts of the loop are ignored. *)
Lemma cache_downloaded_adds dd item_id artist date audio_files acc w o w' :
  cache_downloaded dd item_id artist date audio_files acc w = (o, w') ->
  (item_id ∈ s_identifier <$> songs w -> songs w' = songs w) ∧
  adds_at_most_one (songs w) (songs w').
Proof.
  revert acc w.
  induction audio_files as [|file_name rest IH]; intros acc w;
    [rewrite cache_downloaded_nil|rewrite cache_downloaded_cons].
  { unfold ret. intros H. simplify_eq. split; [done|by left]. }
  unfold bind, load_global, os_path_join. rewrite lookup_download_dir.
  destruct dd as [destdir|]; unfold ret, raise; simpl;
    [|intros H; simplify_eq; split; [done|by left]].
  unfold cache_song, with_conn.
  destruct (conn_open w) eqn:Hopen; [|intros H; simplify_eq; split; [done|by left]].
  intros H. apply IH in H as [Hsame _]. simpl in Hsame.
  rewrite Hsame by apply insert_or_ignore_records.
  split; [intros Hin; by apply insert_or_ignore_present|apply insert_or_ignore_adds].
Qed.

Lemma search_and_download_adds str_lower ia download_dir artist date file_format w :
  adds_at_most_one (songs w)
    (songs (search_and_download str_lower ia download_dir artist date file_format w).2).
Proof.
  destruct (search_and_download _ _ _ _ _ _ _) as [o w'] eqn:Hrun. simpl.
  unfold search_and_download, bind, get_cached_songs, with_conn in Hrun.
  destruct (conn_open w); [|simplify_eq; by left].
  destruct (select_file_paths (songs w) artist date) as [|p ps]; run in Hrun;
    [|simplify_eq; by left].
  destruct (search_items ia _) as [[|first others]|e]; try (simplify_eq; by left).
  destruct (get_item ia _) as [item|e]; [|simplify_eq; by left].
  destruct (audio_files_of _ _ _) as [|a rest]; [simplify_eq; by left|].
  rewrite lookup_download_dir in Hrun.
  destruct download_dir as [destdir|]; simpl in Hrun; [|simplify_eq; by left].
  destruct (download ia _ _ _ _) as [[[]|e] d']; [|simplify_eq; by left].
  destruct (cache_downloaded _ _ _ _ _ _ _) as [[v|e] w''] eqn:Hloop;
    apply cache_downloaded_adds in Hloop as [_ Hadds]; by simplify_eq.
Qed.

Lemma run_call_adds str_lower ia download_dir c w :
  adds_at_most_one (songs w) (songs (run_call str_lower ia download_dir c w).2).
Proof.
  destruct c; simpl.
  - apply search_and_download_adds.
  - apply with_conn_adds. intros t. by left.
  - apply cache_song_adds.
  - destruct (play_song_same_store file_path w) as [-> _]. by left.
  - destruct (stop_playback_same_store w) as [-> _]. by left.
  - destruct (list_cached_shows_same_store w) as [-> _]. by left.
  - by left.
Qed.

(** Each call uses up one rowid at most. *)
Lemma run_calls_room str_lower ia download_dir calls n w :
  rowid_room (length calls + n) (songs w) ->
  rowid_room n (songs (run_calls str_lower ia download_dir calls w)).
Proof.
  revert w. induction calls as [|c rest IH]; intros w Hroom; simpl in *; [done|].
  apply IH. eapply adds_at_most_one_room; [apply run_call_adds|done].
Qed.

(** X5.  No method deletes or changes a row.  While the table has room
    for one rowid more than the calls to come, whatever calls a client
    makes, in whatever order and whether they return or raise, the table
    it started from is a prefix of the table it ends with, whatever a
    lookup returned at the start is a prefix of what it returns on the
    rows at the end, and there is still room for a rowid at the end:
    each call has used one at most and none has met the largest rowid. *)
Theorem rows_never_removed
    (str_lower : string -> string) (ia : InternetArchive) (download_dir : option string)
    (calls : list Call) (artist date : string) (w : World) :
  rowid_room (S (length calls)) (songs w) ->
  let w' := run_calls str_lower ia download_dir calls w in
  inserts (songs w) (songs w') ∧
  songs w `prefix_of` songs w' ∧
  select_file_paths (songs w) artist date `prefix_of` select_file_paths (songs w') artist date ∧
  rowid_room 1 (songs w').
Proof.
  intros Hroom w'.
  pose proof (run_calls_inserts str_lower ia download_dir calls w) as Hins.
  fold w' in Hins. split; [done|].
  pose proof (inserts_prefix _ _ Hins) as Hpre. split; [done|]. split.
  - destruct Hpre as [added ->]. rewrite select_file_paths_app. by apply prefix_app_r.
  - apply run_calls_room. by rewrite Nat.add_1_r.
Qed.

Lemma rows_never_removed_witness :
  let calls := [CallCacheSong "item-c" "A" "2020-01-01" "c.mp3" "downloads/item-c/c.mp3";
                CallSearchAndDownload "GratefulDead" "1972-09-03" "mp3";
                CallCleanup] in
  let w' := run_calls ascii_lower one_show_archive (Some "downloads") calls two_shows_world in
  rowid_room 4 (songs two_shows_world) ∧
  songs two_shows_world `prefix_of` songs w' ∧
  rowid_room 1 (songs w').
Proof.
  intros calls w'.
  assert (Hroom : rowid_room 4 (songs two_shows_world)).
  { unfold rowid_room. apply (bool_decide_unpack _). by vm_compute. }
  pose proof (rows_never_removed ascii_lower one_show_archive (Some "downloads") calls
                "A" "2020-01-01" two_shows_world Hroom) as (_ & Hprefix & _ & Hleft).
  split; [exact Hroom|]. split; [exact Hprefix|exact Hleft].
Defined.

(** X6.  The constraints of the schema hold throughout.  When the rowids
    ([id INTEGER PRIMARY KEY]) and the identifiers ([identifier TEXT
    UNIQUE]) of the table are each without repetition, they still are
    after any sequence of calls. *)
Theorem schema_constraints_kept
    (str_lower : string -> string) (ia : InternetArchive) (download_dir : option string)
    (calls : list Call) (w : World) :
  NoDup (s_id <$> songs w) ->
  unique_identifier (songs w) ->
  let w' := run_calls str_lower ia download_dir calls w in
  NoDup (s_id <$> songs w') ∧ unique_identifier (songs w').
Proof.
  intros Hid Hu w'.
  pose proof (run_calls_inserts str_lower ia download_dir calls w) as Hins.
  split; [by eapply inserts_rowids|by eapply inserts_unique].
Qed.

Lemma schema_constraints_kept_witness :
  NoDup (s_id <$> songs two_shows_world) ∧
  unique_identifier (songs two_shows_world) ∧
  unique_identifier
    (songs (run_calls ascii_lower one_show_archive (Some "downloads")
              [CallSearchAndDownload "GratefulDead" "1972-09-03" "mp3";
               CallCacheSong "item-a" "A" "2021-01-01" "z.mp3" "z.mp3"]
              two_shows_world)).
Proof.
  assert (Hid : NoDup (s_id <$> songs two_shows_world)).
  { apply (bool_decide_unpack _). by vm_compute. }
  assert (Hu : unique_identifier (songs two_shows_world)).
  { apply (bool_decide_unpack _). by vm_compute. }
  split; [exact Hid|]. split; [exact Hu|].
  exact (proj2 (schema_constraints_kept ascii_lower one_show_archive (Some "downloads")
                  [CallSearchAndDownload "GratefulDead" "1972-09-03" "mp3";
                   CallCacheSong "item-a" "A" "2021-01-01" "z.mp3" "z.mp3"]
                  two_shows_world Hid Hu)).
Defined.

Lemma cleanup_same_playback w : same_playback w (cleanup w).2.
Proof. done. Qed.

Lemma run_call_keeps_inv str_lower ia download_dir c w :
  playback_inv w -> playback_inv (run_call str_lower ia download_dir c w).2.
Proof.
  intros Hinv. destruct c; simpl.
  - eapply playback_inv_same; [apply search_and_download_same_playback|done].
  - eapply playback_inv_same; [apply with_conn_same_playback|done].
  - eapply playback_inv_same; [apply cache_song_same_playback|done].
  - by apply play_song_keeps_inv.
  - by apply stop_playback_keeps_inv.
  - eapply playback_inv_same; [apply list_cached_shows_same_playback|done].
  - eapply playback_inv_same; [apply cleanup_same_playback|done].
Qed.

(** X7.  One player at most, whatever the client does.  From a state in
    which only [self.player] may be playing, as in a new object, every
    sequence of calls ends in such a state, with at most one media player
    playing. *)
Theorem one_player_at_most
    (str_lower : string -> string) (ia : InternetArchive) (download_dir : option string)
    (calls : list Call) (w : World) :
  playback_inv w ->
  let w' := run_calls str_lower ia download_dir calls w in
  playback_inv w' ∧ (length (active_handles w') <= 1)%nat.
Proof.
  intros Hinv w'. assert (Hinv' : playback_inv w').
  { subst w'. revert w Hinv. induction calls as [|c rest IH]; intros w Hinv; simpl; [done|].
    apply IH. by apply run_call_keeps_inv. }
  split; [done|by apply playback_inv_at_most_one].
Qed.

Lemma one_player_at_most_witness :
  playback_inv two_files_world ∧
  (length (active_handles
     (run_calls ascii_lower empty_archive None
        [CallPlaySong "music/a.mp3"; CallListCachedShows; CallPlaySong "music/b.mp3";
         CallCleanup; CallPlaySong "music/a.mp3"]
        two_files_world)) <= 1)%nat.
Proof.
  assert (Hinv : playback_inv two_files_world).
  { split; simpl; [intros h m Hm; by rewrite lookup_nil in Hm|discriminate]. }
  split; [exact Hinv|].
  exact (proj2 (one_player_at_most ascii_lower empty_archive None
                  [CallPlaySong "music/a.mp3"; CallListCachedShows;
                   CallPlaySong "music/b.mp3"; CallCleanup; CallPlaySong "music/a.mp3"]
                  two_files_world Hinv)).
Defined.

(** ** Stopping *)

Lemma playing_handles_quiet (l : list MediaPlayer) :
  (∀ h m, l !! h = Some m -> mp_playing m = false) -> playing_handles l = [].
Proof.
  intros Hquiet. unfold playing_handles. apply filter_none.
  intros h _. destruct (l !! h) as [m|] eqn:Hm; [|done]. simpl.
  by rewrite (Hquiet h m Hm).
Qed.

Lemma stop_playback_run w :
  stop_playback w =
    (Return VNone,
     mkWorld (conn_open w) (songs w) (disk w)
       (stdout w ++ match player w with Some _ => ["Playback stopped."] | None => [] end)
       (events w ++ stop_current w) (stopped_players w) (player w)).
Proof.
  unfold stop_playback, vlc_stop, stopped_players, stop_current. run.
  destruct w as [c t d o e m [h|]]; simpl; [done|]. by rewrite !app_nil_r.
Qed.

(** X8.  [stop_playback] leaves nothing playing.  From a state in which
    only [self.player] may be playing, after [stop_playback] no media
    player is playing; a stop was sent to [self.player] if there is one,
    and [self.player] is kept, not reset.  On an object that never
    played, [stop_playback] changes nothing and prints nothing. *)
Theorem stop_playback_silences (w : World) :
  playback_inv w ->
  let r := stop_playback w in
  r.1 = Return VNone ∧
  active_handles r.2 = [] ∧
  player r.2 = player w ∧
  events r.2 = events w ++ stop_current w ∧
  (player w = None -> r = (Return VNone, w)).
Proof.
  intros Hinv r. subst r. rewrite stop_playback_run. simpl.
  split; [done|]. split; [|split; [done|split; [done|]]].
  - unfold active_handles. simpl. apply playing_handles_quiet.
    intros h m. by apply stopped_players_quiet.
  - intros Hnone. unfold stopped_players, stop_current. rewrite Hnone.
    rewrite !app_nil_r. destruct w; simpl in *. by subst.
Qed.

Lemma stop_playback_silences_witness :
  let w1 := (play_song "music/a.mp3" two_files_world).2 in
  playback_inv w1 ∧
  active_handles w1 = [0] ∧
  active_handles (stop_playback w1).2 = [].
Proof.
  intros w1.
  assert (Hm : media_players w1 = [mkMediaPlayer "music/a.mp3" true])
    by (vm_compute; reflexivity).
  assert (Hp : player w1 = Some 0) by (vm_compute; reflexivity).
  assert (Hinv : playback_inv w1).
  { split; rewrite Hm, Hp.
    - intros [|h] m Hh Hplaying; [reflexivity|discriminate].
    - intros h [= <-]. simpl. lia. }
  split; [exact Hinv|]. split; [reflexivity|].
  exact (proj1 (proj2 (stop_playback_silences w1 Hinv))).
Defined.

(** X9.  [self.player] is never cleared, so a stop is sent again.  Once
    [self.player] is set, a second [stop_playback] sends a second stop to
    the same media player and prints its line again, and a [play_song]
    that follows a [stop_playback] stops that media player once more
    before it starts the new one. *)
Theorem stop_is_sent_again (file_path : string) (h : nat) (w : World) :
  player w = Some h ->
  file_path ∈ disk w ->
  let w1 := (stop_playback w).2 in
  let n := length (media_players w) in
  player w1 = Some h ∧
  events (stop_playback w1).2 = events w ++ [VlcStop h; VlcStop h] ∧
  stdout (stop_playback w1).2 = stdout w ++ ["Playback stopped."; "Playback stopped."] ∧
  events (play_song file_path w1).2 =
    events w ++ [VlcStop h; VlcStop h; VlcMediaPlayer n file_path; VlcPlay n].
Proof.
  intros Hplayer Hfile w1 n. subst w1 n.
  rewrite (stop_playback_run w). simpl.
  rewrite stop_playback_run, play_song_run by done. simpl.
  unfold stop_current, stopped_players. simpl. rewrite Hplayer. simpl.
  rewrite length_alter. rewrite <- !(assoc_L (++)). done.
Qed.

Lemma stop_is_sent_again_witness :
  let w1 := (play_song "music/a.mp3" two_files_world).2 in
  player w1 = Some 0 ∧
  ("music/b.mp3" ∈ disk w1) ∧
  events (play_song "music/b.mp3" (stop_playback w1).2).2 =
    events w1 ++ [VlcStop 0; VlcStop 0; VlcMediaPlayer 1 "music/b.mp3"; VlcPlay 1].
Proof.
  intros w1.
  assert (Hplayer : player w1 = Some 0) by reflexivity.
  assert (Hfile : "music/b.mp3" ∈ disk w1) by (vm_compute; reflexivity).
  split; [exact Hplayer|]. split; [exact Hfile|].
  exact (proj2 (proj2 (proj2 (stop_is_sent_again "music/b.mp3" 0 w1 Hplayer Hfile)))).
Defined.

(** ** Acquisition *)

(** What [search_and_download] can do in the module as it stands: it
    changes the output and the call log only, downloads nothing, and on a
    miss it can only return the empty list. *)
Lemma search_and_download_as_written str_lower ia artist date file_format w :
  let r := search_and_download str_lower ia None artist date file_format w in
  ∃ out calls,
    stdout r.2 = stdout w ++ out ∧
    events r.2 = events w ++ calls ∧
    Forall read_only_call calls ∧
    (songs r.2 = songs w ∧ disk r.2 = disk w ∧ conn_open r.2 = conn_open w ∧
     media_players r.2 = media_players w ∧ player r.2 = player w) ∧
    (select_file_paths (songs w) artist date = [] ->
     ∀ v, r.1 = Return v -> v = VList []) ∧
    (∀ p ps, conn_open w = true -> select_file_paths (songs w) artist date = p :: ps ->
     calls = [] ∧ r.1 = Return (str_list (p :: ps))).
Proof.
  intros r. destruct r as [o w'] eqn:Hrun. subst r. simpl.
  unfold search_and_download, bind, get_cached_songs, with_conn in Hrun.
  destruct (conn_open w) eqn:Hopen.
  2:{ simplify_eq. exists [], []. rewrite !app_nil_r. repeat split; done. }
  destruct (select_file_paths (songs w) artist date) as [|p ps] eqn:Hsel; run in Hrun.
  2:{ simplify_eq. eexists [_], []. rewrite (app_nil_r (events w)). simpl.
      repeat split; try done. congruence. }
  destruct (search_items ia _) as [[|first others]|e].
  - simplify_eq. eexists [_; _], [_]. simpl. rewrite <- ?(assoc_L (++)).
    repeat split; try done; [by repeat constructor|]. intros _ v Hv. by simplify_eq.
  - destruct (get_item ia _) as [item|e].
    + destruct (audio_files_of _ _ _) as [|a rest]; simplify_eq.
      * eexists [_; _; _], [_; _]. simpl. rewrite <- ?(assoc_L (++)).
        repeat split; try done; [by repeat constructor|]. intros _ v Hv. by simplify_eq.
      * eexists [_; _; _], [_; _]. simpl. rewrite <- ?(assoc_L (++)).
        repeat split; try done. by repeat constructor.
    + simplify_eq. eexists [_; _], [_; _]. simpl. rewrite <- ?(assoc_L (++)).
      repeat split; try done. by repeat constructor.
  - simplify_eq. eexists [_], [_]. simpl. rewrite <- ?(assoc_L (++)).
    repeat split; try done. by repeat constructor.
Qed.

(** X10.  As the module stands, [search_and_download] never fills the
    cache.  Whatever the archive answers, the table and the disk are as
    before the call, the only library calls made are searches and
    listings, a call that misses can only return the empty list, and the
    same key misses again afterwards. *)
Theorem as_written_never_downloads
    (str_lower : string -> string) (ia : InternetArchive)
    (artist date file_format : string) (w : World) :
  let r := search_and_download str_lower ia None artist date file_format w in
  songs r.2 = songs w ∧
  disk r.2 = disk w ∧
  (∃ calls, events r.2 = events w ++ calls ∧ Forall read_only_call calls) ∧
  (cache_miss artist date w ->
   (∀ v, r.1 = Return v -> v = VList []) ∧ cache_miss artist date r.2).
Proof.
  intros r.
  destruct (search_and_download_as_written str_lower ia artist date file_format w)
    as (out & calls & Hout & Hcalls & Hro & (Hs & Hd & Hc & _) & Hmiss & _).
  fold r in Hout, Hcalls, Hs, Hd, Hc, Hmiss.
  split; [done|]. split; [done|]. split; [eauto|].
  intros Hm. apply cache_miss_iff in Hm as [Hopen Hnil]. split; [auto|].
  apply cache_miss_iff. by rewrite Hc, Hs.
Qed.

(** X11.  Failures of the archive client reach the caller.  On a cache
    miss, an exception raised by the search, or by the listing of the
    first candidate, is raised by [search_and_download] unchanged; no
    further library call is made and the table and the disk are as
    before. *)
Theorem library_errors_propagate
    (str_lower : string -> string) (ia : InternetArchive) (download_dir : option string)
    (artist date file_format : string) (e : exn) (w : World) :
  cache_miss artist date w ->
  let r := search_and_download str_lower ia download_dir artist date file_format w in
  let query := archive_query artist date in
  (search_items ia query = Raise e ->
   r.1 = Raise e ∧ events r.2 = events w ++ [SearchItems query] ∧
   songs r.2 = songs w ∧ disk r.2 = disk w) ∧
  (∀ first others,
     search_items ia query = Return (first :: others) ->
     get_item ia (r_identifier first) = Raise e ->
     r.1 = Raise e ∧
     events r.2 = events w ++ [SearchItems query; GetItem (r_identifier first)] ∧
     songs r.2 = songs w ∧ disk r.2 = disk w).
Proof.
  intros Hmiss r query. destruct r as [o w'] eqn:Hrun. subst r query. simpl.
  unfold search_and_download, bind in Hrun. rewrite Hmiss in Hrun. run in Hrun.
  split.
  - intros Hsearch. rewrite Hsearch in Hrun. by simplify_eq.
  - intros first others Hsearch Hitem. rewrite Hsearch, Hitem in Hrun.
    simplify_eq. simpl. by rewrite <- (assoc_L (++)).
Qed.

Lemma library_errors_propagate_witness :
  cache_miss "GratefulDead" "1972-09-03" fresh_world ∧
  search_items unreachable_archive (archive_query "GratefulDead" "1972-09-03") =
    Raise (LibraryError "ConnectionError") ∧
  (search_and_download ascii_lower unreachable_archive None
     "GratefulDead" "1972-09-03" "mp3" fresh_world).1 = Raise (LibraryError "ConnectionError").
Proof.
  assert (Hmiss : cache_miss "GratefulDead" "1972-09-03" fresh_world) by reflexivity.
  split; [exact Hmiss|]. split; [reflexivity|].
  exact (proj1 (proj1 (library_errors_propagate ascii_lower unreachable_archive None
                  "GratefulDead" "1972-09-03" "mp3" (LibraryError "ConnectionError")
                  fresh_world Hmiss) eq_refl)).
Defined.

(** The run of a miss that reaches the download, with [DOWNLOAD_DIR]
    bound to [destdir]. *)
Lemma search_and_download_batch str_lower ia artist date file_format destdir w
    first others item a rest :
  cache_miss artist date w ->
  search_items ia (archive_query artist date) = Return (first :: others) ->
  get_item ia (r_identifier first) = Return item ->
  audio_files_of str_lower item file_format = a :: rest ->
  let item_id := r_identifier first in
  let r := search_and_download str_lower ia (Some destdir) artist date file_format w in
  let calls := [SearchItems (archive_query artist date); GetItem item_id;
                Download item_id (a :: rest) (VStr destdir)] in
  match download ia item_id (a :: rest) (VStr destdir) (disk w) with
  | (Return _, disk') =>
      r.1 = Return (str_list ((fun n => posix_join destdir [item_id; n]) <$> a :: rest)) ∧
      songs r.2 = record_all (songs w) item_id artist date destdir (a :: rest) ∧
      disk r.2 = disk' ∧ events r.2 = events w ++ calls ∧ conn_open r.2 = true
  | (Raise e, disk') =>
      r.1 = Raise e ∧ songs r.2 = songs w ∧
      disk r.2 = disk' ∧ events r.2 = events w ++ calls ∧ conn_open r.2 = true
  end.
Proof.
  intros Hmiss Hsearch Hitem Haudio item_id r calls.
  assert (Hopen : conn_open w = true) by (by apply cache_miss_iff in Hmiss as [? _]).
  destruct r as [o w'] eqn:Hrun. subst r calls. simpl.
  unfold search_and_download, bind in Hrun. rewrite Hmiss in Hrun.
  run in Hrun. rewrite Hsearch, Hitem, Haudio in Hrun. fold item_id in Hrun.
  simpl in Hrun.
  destruct (download ia item_id (a :: rest) (VStr destdir) (disk w)) as [[[]|e] disk'].
  - rewrite (cache_downloaded_run item_id artist date destdir) in Hrun by done.
    simplify_eq. simpl. by rewrite <- !(assoc_L (++)).
  - simplify_eq. simpl. by rewrite <- !(assoc_L (++)).
Qed.

(** C6.  On a cache miss the names kept from the listing of the selected
    candidate are those of the files whose format equals the requested
    one once both are lower-cased, in the order of the listing, and the
    rest of the run is settled by them.  When none is kept the method
    says so and returns the empty list after the search and the listing,
    with no download.  When some are kept it announces their number;
    then, as the module stands, the unbound name stops it before any
    download, and with [DOWNLOAD_DIR] bound the one download request
    carries exactly the kept names and the paths returned are theirs. *)
Theorem format_filter_on_miss
    (str_lower : string -> string) (ia : InternetArchive) (download_dir : option string)
    (artist date file_format : string) (w : World)
    (first : SearchResult) (others : list SearchResult) (item : Item) :
  cache_miss artist date w ->
  search_items ia (archive_query artist date) = Return (first :: others) ->
  get_item ia (r_identifier first) = Return item ->
  let item_id := r_identifier first in
  let audio_files := audio_files_of str_lower item file_format in
  let r := search_and_download str_lower ia download_dir artist date file_format w in
  let looked_up := [SearchItems (archive_query artist date); GetItem item_id] in
  let found := ["Searching for " +:+ artist +:+ " shows on " +:+ date +:+ "...";
                "Found item: " +:+ item_id] in
  let announced := "Downloading " +:+ fmt_int (length audio_files) +:+ " '" +:+
                   file_format +:+ "' files..." in
  (∀ name, name ∈ audio_files <->
     ∃ file, file ∈ files item ∧ f_name file = name ∧
             str_lower (f_format file) = str_lower file_format) ∧
  audio_files `sublist_of` (f_name <$> files item) ∧
  (audio_files = [] ->
     r.1 = Return (VList []) ∧ events r.2 = events w ++ looked_up ∧
     disk r.2 = disk w ∧ songs r.2 = songs w ∧
     stdout r.2 =
       stdout w ++ found ++ ["No '" +:+ file_format +:+ "' files found for this show."]) ∧
  (audio_files ≠ [] ->
     match download_dir with
     | None =>
         r.1 = Raise (NameError "DOWNLOAD_DIR") ∧
         events r.2 = events w ++ looked_up ∧
         stdout r.2 = stdout w ++ found ++ [announced]
     | Some dir =>
         events r.2 = events w ++ looked_up ++ [Download item_id audio_files (VStr dir)] ∧
         match download ia item_id audio_files (VStr dir) (disk w) with
         | (Return _, disk') =>
             r.1 = Return (str_list ((fun n => posix_join dir [item_id; n]) <$> audio_files)) ∧
             disk r.2 = disk' ∧
             stdout r.2 = stdout w ++ found ++ [announced; "Download complete."]
         | (Raise e, disk') =>
             r.1 = Raise e ∧ disk r.2 = disk' ∧
             stdout r.2 = stdout w ++ found ++ [announced]
         end
     end).
Proof.
  intros Hmiss Hsearch Hitem item_id audio_files r looked_up found announced.
  assert (Hopen : conn_open w = true) by (by apply cache_miss_iff in Hmiss as [? _]).
  split; [intros name; apply elem_of_audio_files_of|].
  split.
  { unfold audio_files, audio_files_of. apply fmap_sublist, sublist_filter. }
  destruct r as [o w'] eqn:Hrun. subst r looked_up found announced. simpl.
  unfold search_and_download, bind in Hrun. rewrite Hmiss in Hrun.
  run in Hrun. rewrite Hsearch, Hitem in Hrun. fold item_id audio_files in Hrun.
  destruct audio_files as [|a rest] eqn:Haudio.
  { simplify_eq. simpl. rewrite <- !(assoc_L (++)). split; [done|]. by intros []. }
  split; [done|]. intros _.
  rewrite lookup_download_dir in Hrun.
  destruct download_dir as [dir|]; simpl in Hrun.
  - destruct (download ia item_id (a :: rest) (VStr dir) (disk w)) as [[[]|e] disk'].
    + rewrite (cache_downloaded_run item_id artist date dir) in Hrun by done.
      simplify_eq. simpl. by rewrite <- !(assoc_L (++)).
    + simplify_eq. simpl. by rewrite <- !(assoc_L (++)).
  - simplify_eq. simpl. by rewrite <- !(assoc_L (++)).
Qed.

Lemma format_filter_on_miss_witness :
  let r := search_and_download ascii_lower one_show_archive None
             "GratefulDead" "1972-09-03" "mp3" fresh_world in
  cache_miss "GratefulDead" "1972-09-03" fresh_world ∧
  audio_files_of ascii_lower
    (mkItem [mkFileEntry "track1.mp3" "MP3"; mkFileEntry "track1.flac" "Flac";
             mkFileEntry "track2.mp3" "mp3"]) "mp3" = ["track1.mp3"; "track2.mp3"] ∧
  r.1 = Raise (NameError "DOWNLOAD_DIR") ∧
  stdout r.2 =
    ["Searching for GratefulDead shows on 1972-09-03..."; "Found item: gd1972-09-03";
     "Downloading 2 'mp3' files..."].
Proof.
  intros r.
  assert (Hmiss : cache_miss "GratefulDead" "1972-09-03" fresh_world) by reflexivity.
  assert (Hkept : audio_files_of ascii_lower
            (mkItem [mkFileEntry "track1.mp3" "MP3"; mkFileEntry "track1.flac" "Flac";
                     mkFileEntry "track2.mp3" "mp3"]) "mp3" = ["track1.mp3"; "track2.mp3"])
    by reflexivity.
  assert (Hsome : audio_files_of ascii_lower
            (mkItem [mkFileEntry "track1.mp3" "MP3"; mkFileEntry "track1.flac" "Flac";
                     mkFileEntry "track2.mp3" "mp3"]) "mp3" ≠ [])
    by (rewrite Hkept; discriminate).
  pose proof (proj2 (proj2 (proj2 (format_filter_on_miss ascii_lower one_show_archive None
                "GratefulDead" "1972-09-03" "mp3" fresh_world
                (mkSearchResult "gd1972-09-03") [] _ Hmiss eq_refl eq_refl))) Hsome)
    as (Hres & _ & Hout).
  split; [exact Hmiss|]. split; [exact Hkept|]. split; [exact Hres|exact Hout].
Defined.

(** X12.  A batch adds at most one row.  With [DOWNLOAD_DIR] bound and
    room in the table for two more rowids, a
    miss whose download returns gives back the path of every file of the
    requested format, but the table gains no row when the identifier of
    the item is already recorded (the key then still misses), and
    otherwise exactly one row, for the first file; the next lookup for
    the key returns that one path at most. *)
Theorem batch_adds_at_most_one_row
    (str_lower : string -> string) (ia : InternetArchive)
    (artist date file_format destdir : string) (w : World)
    (first : SearchResult) (others : list SearchResult) (item : Item)
    (name : string) (rest : list string) (disk' : gset string) :
  cache_miss artist date w ->
  search_items ia (archive_query artist date) = Return (first :: others) ->
  get_item ia (r_identifier first) = Return item ->
  audio_files_of str_lower item file_format = name :: rest ->
  rowid_room 2 (songs w) ->
  let item_id := r_identifier first in
  download ia item_id (name :: rest) (VStr destdir) (disk w) = (Return tt, disk') ->
  let r := search_and_download str_lower ia (Some destdir) artist date file_format w in
  let path n := posix_join destdir [item_id; n] in
  r.1 = Return (str_list (path <$> name :: rest)) ∧
  (item_id ∈ s_identifier <$> songs w ->
   songs r.2 = songs w ∧ cache_miss artist date r.2) ∧
  (item_id ∉ s_identifier <$> songs w ->
   songs r.2 = songs w ++ [mkSong (next_rowid (songs w)) item_id name artist date (path name)] ∧
   get_cached_songs artist date r.2 = (Return (str_list [path name]), r.2)) ∧
  rowid_room 1 (songs r.2).
Proof.
  intros Hmiss Hsearch Hitem Haudio Hroom item_id Hdl r path.
  assert (Hleft : rowid_room 1 (songs r.2)).
  { eapply adds_at_most_one_room; [apply search_and_download_adds|done]. }
  pose proof (search_and_download_batch str_lower ia artist date file_format destdir w
                first others item name rest Hmiss Hsearch Hitem Haudio) as Hrun.
  simpl in Hrun. fold item_id in Hrun. rewrite Hdl in Hrun. fold r in Hrun.
  destruct Hrun as (Hres & Hsongs & _ & _ & Hopen).
  apply cache_miss_iff in Hmiss as [_ Hnil].
  split; [done|]. split; [|split; [|done]].
  - intros Hin. rewrite record_all_present in Hsongs by done. split; [done|].
    apply cache_miss_iff. by rewrite Hsongs.
  - intros Hnew. rewrite record_all_absent in Hsongs by done. split; [done|].
    rewrite get_cached_songs_open by done. rewrite Hsongs, select_file_paths_app, Hnil.
    unfold select_file_paths. by rewrite filter_cons_True.
Qed.

Lemma batch_adds_at_most_one_row_witness :
  let r := search_and_download ascii_lower one_show_archive (Some "downloads")
             "GratefulDead" "1972-09-03" "mp3" fresh_world in
  cache_miss "GratefulDead" "1972-09-03" fresh_world ∧
  rowid_room 2 (songs fresh_world) ∧
  r.1 = Return (str_list ["downloads/gd1972-09-03/track1.mp3";
                          "downloads/gd1972-09-03/track2.mp3"]) ∧
  (("gd1972-09-03" ∉ s_identifier <$> songs fresh_world) ->
   get_cached_songs "GratefulDead" "1972-09-03" r.2 =
     (Return (str_list ["downloads/gd1972-09-03/track1.mp3"]), r.2)).
Proof.
  intros r.
  assert (Hmiss : cache_miss "GratefulDead" "1972-09-03" fresh_world) by reflexivity.
  assert (Hroom : rowid_room 2 (songs fresh_world)).
  { unfold rowid_room. apply (bool_decide_unpack _). by vm_compute. }
  pose proof (batch_adds_at_most_one_row ascii_lower one_show_archive
                "GratefulDead" "1972-09-03" "mp3" "downloads" fresh_world
                (mkSearchResult "gd1972-09-03") [] _ "track1.mp3" ["track2.mp3"] _
                Hmiss eq_refl eq_refl eq_refl Hroom eq_refl) as (Hres & _ & Hnew & _).
  split; [exact Hmiss|]. split; [exact Hroom|]. split; [exact Hres|].
  intros Habsent. exact (proj2 (Hnew Habsent)).
Defined.

(** X13.  A failed download leaves files without a row.  With
    [DOWNLOAD_DIR] bound, when the download call raises, the exception
    reaches the caller, no row is inserted, whatever the call had written
    stays on disk, and the key misses again on the next call. *)
Theorem download_error_leaves_unrecorded
    (str_lower : string -> string) (ia : InternetArchive)
    (artist date file_format destdir : string) (w : World)
    (first : SearchResult) (others : list SearchResult) (item : Item)
    (name : string) (rest : list string) (e : exn) (disk' : gset string) :
  cache_miss artist date w ->
  search_items ia (archive_query artist date) = Return (first :: others) ->
  get_item ia (r_identifier first) = Return item ->
  audio_files_of str_lower item file_format = name :: rest ->
  let item_id := r_identifier first in
  download ia item_id (name :: rest) (VStr destdir) (disk w) = (Raise e, disk') ->
  let r := search_and_download str_lower ia (Some destdir) artist date file_format w in
  r.1 = Raise e ∧
  songs r.2 = songs w ∧
  disk r.2 = disk' ∧
  cache_miss artist date r.2.
Proof.
  intros Hmiss Hsearch Hitem Haudio item_id Hdl r.
  pose proof (search_and_download_batch str_lower ia artist date file_format destdir w
                first others item name rest Hmiss Hsearch Hitem Haudio) as Hrun.
  simpl in Hrun. fold item_id in Hrun. rewrite Hdl in Hrun. fold r in Hrun.
  destruct Hrun as (Hres & Hsongs & Hdisk & _ & Hopen).
  apply cache_miss_iff in Hmiss as [_ Hnil].
  repeat split; try done. apply cache_miss_iff. by rewrite Hsongs.
Qed.

Lemma download_error_leaves_unrecorded_witness :
  let r := search_and_download ascii_lower flaky_archive (Some "downloads")
             "GratefulDead" "1972-09-03" "mp3" fresh_world in
  cache_miss "GratefulDead" "1972-09-03" fresh_world ∧
  r.1 = Raise (LibraryError "ReadTimeout") ∧
  songs r.2 = [] ∧
  disk r.2 = {["downloads/gd1972-09-03/track1.mp3"]}.
Proof.
  intros r.
  assert (Hmiss : cache_miss "GratefulDead" "1972-09-03" fresh_world) by reflexivity.
  pose proof (download_error_leaves_unrecorded ascii_lower flaky_archive
                "GratefulDead" "1972-09-03" "mp3" "downloads" fresh_world
                (mkSearchResult "gd1972-09-03") [] _ "track1.mp3" ["track2.mp3"]
                (LibraryError "ReadTimeout")
                (∅ ∪ {["downloads/gd1972-09-03/track1.mp3"]})
                Hmiss eq_refl eq_refl eq_refl eq_refl) as (Hres & Hsongs & Hdisk & _).
  split; [exact Hmiss|]. split; [exact Hres|]. split; [exact Hsongs|].
  etrans; [exact Hdisk|vm_compute; reflexivity].
Defined.

(** ** The script *)

Lemma init_run download_dir w :
  init download_dir w = (Return tt, set_player None (set_conn_open true w)).
Proof.
  unfold init, setup_database, bind, load_global. by destruct download_dir.
Qed.

Lemma list_cached_shows_open w :
  conn_open w = true ->
  ∃ lines, list_cached_shows w = (Return VNone, set_stdout (stdout w ++ lines) w).
Proof.
  intros Hopen. unfold list_cached_shows, with_conn, bind. rewrite Hopen.
  rewrite set_songs_same.
  destruct (select_distinct_shows (songs w)) as [|x rest].
  - unfold print at 1. rewrite print_shows_run. simpl. unfold ret.
    exists ["No cached shows found."]. by rewrite app_nil_r.
  - unfold ret at 1. rewrite print_shows_run. unfold ret. eauto.
Qed.

Lemma search_and_download_hit_run str_lower ia download_dir artist date file_format w p ps :
  conn_open w = true ->
  select_file_paths (songs w) artist date = p :: ps ->
  ∃ line,
    search_and_download str_lower ia download_dir artist date file_format w =
      (Return (str_list (p :: ps)), set_stdout (stdout w ++ [line]) w).
Proof.
  intros Hopen Hsel. unfold search_and_download, bind.
  rewrite get_cached_songs_open by done. rewrite Hsel. run. eauto.
Qed.




(** X16.  The script plays the first cached file.  When the table holds
    rows for the show of 1972-09-03 and the path in the first of them is
    on disk, the script calls neither the search nor the download,
    creates one media player for that path and starts it; [cleanup] then
    closes the database and stops nothing, so that media player is still
    playing when the script ends. *)
Theorem main_plays_first_cached
    (str_lower : string -> string) (ia : InternetArchive) (download_dir : option string)
    (p : string) (ps : list string) (w : World) :
  select_file_paths (songs w) "GratefulDead" "1972-09-03" = p :: ps ->
  p ∈ disk w ->
  let r := main str_lower ia download_dir w in
  let h := length (media_players w) in
  r.1 = Return VNone ∧
  events r.2 = events w ++ [VlcMediaPlayer h p; VlcPlay h] ∧
  media_players r.2 = media_players w ++ [mkMediaPlayer p true] ∧
  player r.2 = Some h ∧
  songs r.2 = songs w ∧
  conn_open r.2 = false.
Proof.
  intros Hsel Hfile r h. destruct r as [o wf] eqn:Hrun. subst r h. simpl.
  unfold main, bind in Hrun. rewrite init_run in Hrun.
  unfold try_finally, cleanup in Hrun. unfold bind, ret in Hrun. simpl in Hrun.
  destruct (search_and_download_hit_run str_lower ia download_dir
              "GratefulDead" "1972-09-03" "mp3"
              (set_player None (set_conn_open true w)) p ps eq_refl Hsel) as [line Hhit].
  rewrite Hhit in Hrun.
  match type of Hrun with context [list_cached_shows ?w1] =>
    destruct (list_cached_shows_open w1 eq_refl) as [lines Hlist] end.
  rewrite Hlist in Hrun. simpl in Hrun.
  rewrite play_song_run in Hrun by done. simpl in Hrun. simplify_eq. simpl.
  unfold stop_current, stopped_players. simpl. repeat split.
Qed.

Lemma main_plays_first_cached_witness :
  let w := set_disk {["downloads/gd1972-09-03/track1.mp3"]}
             (set_songs [mkSong 1 "gd1972-09-03" "track1.mp3" "GratefulDead" "1972-09-03"
                           "downloads/gd1972-09-03/track1.mp3"] fresh_world) in
  select_file_paths (songs w) "GratefulDead" "1972-09-03" =
    ["downloads/gd1972-09-03/track1.mp3"] ∧
  ("downloads/gd1972-09-03/track1.mp3" ∈ disk w) ∧
  events (main ascii_lower unreachable_archive None w).2 =
    [VlcMediaPlayer 0 "downloads/gd1972-09-03/track1.mp3"; VlcPlay 0].
Proof.
  intros w.
  assert (Hsel : select_file_paths (songs w) "GratefulDead" "1972-09-03" =
                   ["downloads/gd1972-09-03/track1.mp3"]) by reflexivity.
  assert (Hfile : "downloads/gd1972-09-03/track1.mp3" ∈ disk w) by (vm_compute; reflexivity).
  split; [exact Hsel|]. split; [exact Hfile|].
  exact (proj1 (proj2 (main_plays_first_cached ascii_lower unreachable_archive None
                         _ _ w Hsel Hfile))).
Defined.
